(** * Tic-tac-toe rules engine: a shallow embedding of [tic_tac_toe/game.py]

    The Python module keeps a game in a dictionary with the five fixed keys
    ['player1'], ['player2'], ['board'], ['next_turn'] and ['winner'] and
    mutates it in place; [move] reports rule violations and the end of the
    game by raising exceptions.  Here the dictionary is a record, the board a
    list of rows, and every function that mutates or raises returns the state
    it leaves behind together with its outcome. *)

From Stdlib Require Import ZArith Ascii.
From stdpp Require Import base option list strings.

Open Scope Z_scope.

(** ** Python values used by the module *)

(** Player identifiers and cell marks are Python strings.  A string is
    truthy exactly when it is not empty; [None] is falsy. *)
Definition truthy (s : string) : bool :=
  match s with
  | EmptyString => false
  | String _ _ => true
  end.

Definition truthy_opt (o : option string) : bool :=
  match o with
  | None => false
  | Some s => truthy s
  end.

(** [str(x)] for a value that is a string or [None], as [str.format] uses it. *)
Definition py_str (o : option string) : string :=
  match o with
  | None => "None"
  | Some s => s
  end.

Definition dq : string := String (ascii_of_nat 34) EmptyString.
Definition nl : string := String (ascii_of_nat 10) EmptyString.

(** ** Exceptions *)

(** Modelled from the spec: the exception classes [InvalidMovement] and
    [GameOver] come from [tic_tac_toe/exceptions.py], which is not part of
    the sources at hand; the spec describes them as two separate error kinds
    that carry a human-readable reason.  [IndexError] is Python's own and is
    what indexing a list or tuple out of range raises. *)
Inductive exn : Type :=
  | InvalidMovement (msg : string)
  | GameOver (msg : string)
  | IndexError.

Inductive result (A : Type) : Type :=
  | Ok (a : A)
  | Raise (e : exn).
Arguments Ok {A} a.
Arguments Raise {A} e.

#[global] Instance result_ret : MRet result := fun A a => Ok a.
#[global] Instance result_bind : MBind result := fun A B f m =>
  match m with
  | Ok a => f a
  | Raise e => Raise e
  end.

(** ** Indexing *)

(** [l[i]] with Python's rule for negative indices. *)
Definition py_index {A} (l : list A) (i : Z) : option nat :=
  let n := Z.of_nat (length l) in
  let j := if i <? 0 then i + n else i in
  if (0 <=? j) && (j <? n) then Some (Z.to_nat j) else None.

Definition py_getitem {A} (l : list A) (i : Z) : result A :=
  match py_index l i with
  | Some j =>
      match l !! j with
      | Some x => Ok x
      | None => Raise IndexError
      end
  | None => Raise IndexError
  end.

(** [l[i] = x]; the list that results. *)
Definition py_setitem {A} (l : list A) (i : Z) (x : A) : result (list A) :=
  match py_index l i with
  | Some j => Ok (<[j:=x]> l)
  | None => Raise IndexError
  end.

(** ** Data model *)

Abbreviation Board := (list (list string)) (only parsing).

(** A position is a tuple of integers, of any length. *)
Abbreviation Position := (list Z) (only parsing).

Record Game : Type := mkGame {
  player1 : string;
  player2 : string;
  board : Board;
  next_turn : option string;
  winner : option string
}.

(** ** Internal helpers *)

Definition _position_is_empty_in_board (position : Position) (board : Board)
  : result bool :=
  position_row ← py_getitem position 0;
  position_column ← py_getitem position 1;
  row ← py_getitem board position_row;
  cell ← py_getitem row position_column;
  mret (bool_decide (cell = "-")).

Definition valid_positions : list Position :=
  [ (* horizontals *)
    [0; 0]; [0; 1]; [0; 2];
    [1; 0]; [1; 1]; [1; 2];
    [2; 0]; [2; 1]; [2; 2];
    (* verticals *)
    [0; 0]; [1; 0]; [2; 0];
    [0; 1]; [1; 1]; [2; 1];
    [0; 2]; [1; 2]; [2; 2];
    (* diagonals *)
    [0; 0]; [1; 1]; [2; 2];
    [2; 0]; [1; 1]; [0; 2] ].

Definition _position_is_valid (position : Position) : bool :=
  bool_decide (position ∈ valid_positions).

Definition _board_is_full (board : Board) : bool :=
  forallb (fun i => forallb (fun j => negb (bool_decide (j = "-"))) i) board.

Fixpoint _is_winning_combination (board : Board) (combination : list Position)
    (player : string) : result bool :=
  match combination with
  | [] => mret true
  | position :: rest =>
      r ← py_getitem position 0;
      row ← py_getitem board r;
      c ← py_getitem position 1;
      cell ← py_getitem row c;
      if bool_decide (cell ≠ player) then mret false
      else _is_winning_combination board rest player
  end.

Definition combinations : list (list Position) :=
  [ (* horizontals *)
    [[0; 0]; [0; 1]; [0; 2]];
    [[1; 0]; [1; 1]; [1; 2]];
    [[2; 0]; [2; 1]; [2; 2]];
    (* verticals *)
    [[0; 0]; [1; 0]; [2; 0]];
    [[0; 1]; [1; 1]; [2; 1]];
    [[0; 2]; [1; 2]; [2; 2]];
    (* diagonals *)
    [[0; 0]; [1; 1]; [2; 2]];
    [[2; 0]; [1; 1]; [0; 2]] ].

(** The loop of [_check_winning_combinations] over the combinations still to
    be tried. *)
Fixpoint first_winning (board : Board) (todo : list (list Position))
    (player : string) : result (option string) :=
  match todo with
  | [] => mret None
  | combination :: rest =>
      w ← _is_winning_combination board combination player;
      if w : bool then mret (Some player) else first_winning board rest player
  end.

Definition _check_winning_combinations (board : Board) (player : string)
  : result (option string) :=
  first_winning board combinations player.

(** ** Public interface *)

Definition start_new_game (player1 player2 : string) : Game :=
  {| player1 := player1;
     player2 := player2;
     board := [ ["-"; "-"; "-"];
                ["-"; "-"; "-"];
                ["-"; "-"; "-"] ];
     next_turn := Some player1;
     winner := None |}.

Definition get_winner (game : Game) : option string := winner game.

Definition get_next_turn (game : Game) : option string := next_turn game.

Definition set_board (game : Game) (b : Board) : Game :=
  {| player1 := player1 game; player2 := player2 game; board := b;
     next_turn := next_turn game; winner := winner game |}.

Definition set_next_turn (game : Game) (t : option string) : Game :=
  {| player1 := player1 game; player2 := player2 game; board := board game;
     next_turn := t; winner := winner game |}.

Definition set_winner (game : Game) (w : option string) : Game :=
  {| player1 := player1 game; player2 := player2 game; board := board game;
     next_turn := next_turn game; winner := w |}.

(** [board[position[0]][position[1]] = player]: the row object is fetched and
    updated in place, so the board sees the new row. *)
Definition mark (board : Board) (position : Position) (player : string)
  : result Board :=
  r ← py_getitem position 0;
  row ← py_getitem board r;
  c ← py_getitem position 1;
  row' ← py_setitem row c player;
  py_setitem board r row'.

(** [move] mutates the game and may raise: the result is the game as the call
    leaves it, paired with [Ok ()] for a normal return or the exception. *)
Definition move (game : Game) (player : string) (position : Position)
  : Game * result unit :=
  let board := board game in
  if truthy_opt (winner game) || _board_is_full board then
    (game, Raise (InvalidMovement "Game is over."))
  else if bool_decide (Some player ≠ get_next_turn game) then
    (game, Raise (InvalidMovement
                    (dq +:+ py_str (next_turn game) +:+ dq +:+ " moves next.")))
  else if negb (_position_is_valid position) then
    (game, Raise (InvalidMovement "Position out of range."))
  else
    match _position_is_empty_in_board position board with
    | Raise e => (game, Raise e)
    | Ok false => (game, Raise (InvalidMovement "Position already taken."))
    | Ok true =>
        match mark board position player with
        | Raise e => (game, Raise e)
        | Ok board =>
            let game := set_board game board in
            match _check_winning_combinations board player with
            | Raise e => (game, Raise e)
            | Ok winner =>
                if truthy_opt winner then
                  let game := set_winner game winner in
                  let game := set_next_turn game None in
                  (game, Raise (GameOver (dq +:+ py_str winner +:+ dq +:+ " wins!")))
                else if _board_is_full board then
                  let game := set_next_turn game None in
                  (game, Raise (GameOver "Game is tied!"))
                else
                  let game :=
                    set_next_turn game
                      (Some (if bool_decide (next_turn game = Some (player2 game))
                             then player1 game else player2 game)) in
                  (game, Ok ())
            end
        end
    end.

(** [template.format( *args )] for a template whose only replacement fields
    are the automatically numbered [{}], as in [get_board_as_string]: each
    field takes the next argument, a missing argument raises [IndexError],
    surplus arguments are ignored. *)
Fixpoint py_format (template : string) (args : list string) : result string :=
  match template with
  | EmptyString => mret EmptyString
  | String ch rest =>
      match rest with
      | String ch' rest' =>
          if Ascii.eqb ch "{" && Ascii.eqb ch' "}" then
            match args with
            | [] => Raise IndexError
            | a :: args' => s ← py_format rest' args'; mret (a +:+ s)
            end
          else s ← py_format rest args; mret (String ch s)
      | EmptyString => mret (String ch EmptyString)
      end
  end.

Definition board_string : string :=
  nl +:+
  "{}  |  {}  |  {}" +:+ nl +:+
  "--------------" +:+ nl +:+
  "{}  |  {}  |  {}" +:+ nl +:+
  "--------------" +:+ nl +:+
  "{}  |  {}  |  {}" +:+ nl.

Definition get_board_as_string (game : Game) : result string :=
  let board := board game in
  let flattened := concat board in
  py_format board_string flattened.

(** ** Vocabulary of the specification *)

(** The cell in row [r], column [c]. *)
Definition cell_at (b : Board) (r c : nat) : option string :=
  row ← b !! r; row !! c.

(** A board has three rows of three cells. *)
Definition wf_board (b : Board) : Prop :=
  length b = 3%nat ∧ Forall (fun row => length row = 3%nat) b.

(** The position (row, column) as the two-element tuple [move] receives. *)
Definition pos (r c : nat) : Position := [Z.of_nat r; Z.of_nat c].

(** One of the nine pairs of {0,1,2} x {0,1,2}. *)
Definition in_range (position : Position) : Prop :=
  ∃ r c : Z, position = [r; c] ∧ 0 <= r <= 2 ∧ 0 <= c <= 2.

(** No cell shows the empty marker. *)
Definition board_full (b : Board) : Prop :=
  Forall (Forall (fun cell => cell ≠ "-")) b.

(** The board after the cell in row [r], column [c] is marked with [p]. *)
Definition set_cell (b : Board) (r c : nat) (p : string) : Board :=
  alter (fun row => <[c:=p]> row) r b.

(** The eight winning lines: three rows, three columns, two diagonals. *)
Inductive line : list (nat * nat) → Prop :=
  | line_row r : (r < 3)%nat → line [(r, 0); (r, 1); (r, 2)]%nat
  | line_column c : (c < 3)%nat → line [(0, c); (1, c); (2, c)]%nat
  | line_diagonal : line [(0, 0); (1, 1); (2, 2)]%nat
  | line_antidiagonal : line [(2, 0); (1, 1); (0, 2)]%nat.

(** Player [p] holds every cell of the line [l]. *)
Definition holds (b : Board) (p : string) (l : list (nat * nat)) : Prop :=
  Forall (fun rc => cell_at b rc.1 rc.2 = Some p) l.

(** Some winning line is entirely [p]'s. *)
Definition completes (b : Board) (p : string) : Prop :=
  ∃ l, line l ∧ holds b p l.

(** A move that passes the four checks of [move], in the words of the
    specification: the game is not over, it is [p]'s turn, the position is
    in range and its cell is empty. *)
Record valid_move (g : Game) (p : string) (r c : nat) : Prop := {
  vm_board : wf_board (board g);
  vm_no_winner : winner g = None;
  vm_not_full : ¬ board_full (board g);
  vm_turn : next_turn g = Some p;
  vm_row : (r < 3)%nat;
  vm_column : (c < 3)%nat;
  vm_empty : cell_at (board g) r c = Some "-"
}.

(** A sequence of calls to [move] on the same game object, whatever each
    call's outcome. *)
Fixpoint play (g : Game) (calls : list (string * Position)) : Game :=
  match calls with
  | [] => g
  | (p, position) :: rest => play (move g p position).1 rest
  end.

(** The games a caller can obtain through the public interface. *)
Inductive reachable : Game → Prop :=
  | reachable_start p1 p2 : reachable (start_new_game p1 p2)
  | reachable_move g p position :
      reachable g → reachable (move g p position).1.

(** The table of [_check_winning_combinations], as board coordinates. *)
Definition lines : list (list (nat * nat)) :=
  [ [(0, 0); (0, 1); (0, 2)];
    [(1, 0); (1, 1); (1, 2)];
    [(2, 0); (2, 1); (2, 2)];
    [(0, 0); (1, 0); (2, 0)];
    [(0, 1); (1, 1); (2, 1)];
    [(0, 2); (1, 2); (2, 2)];
    [(0, 0); (1, 1); (2, 2)];
    [(2, 0); (1, 1); (0, 2)] ]%nat.

Definition tuple_of (rc : nat * nat) : Position := pos rc.1 rc.2.

(** ** Invariants *)

(** The board is three by three, and a recorded winner is a truthy
    identifier. *)
Definition game_inv (g : Game) : Prop :=
  wf_board (board g) ∧ (winner g = None ∨ truthy_opt (winner g) = true).

(** The outcome of a move that was made: a normal return, or the signal
    that the move ended the game. *)
Definition accepted (out : result unit) : Prop :=
  out = Ok () ∨ ∃ msg, out = Raise (GameOver msg).

Definition terminal (g : Game) : Prop :=
  truthy_opt (winner g) = true ∨ board_full (board g).

Definition empty_board : list (list string) :=
  [["-"; "-"; "-"]; ["-"; "-"; "-"]; ["-"; "-"; "-"]].

(** [next_turn] names one of the two players, or nobody. *)
Definition turn_inv (g : Game) : Prop :=
  next_turn g = None
  ∨ next_turn g = Some (player1 g) ∨ next_turn g = Some (player2 g).

(** The games that can arise when a player's identifier is the empty
    marker: over, new, or one move by a first player of another name. *)
Definition dash_inv (g : Game) : Prop :=
  terminal g
  ∨ (next_turn g = Some (player1 g) ∧ board g = empty_board)
  ∨ (next_turn g = Some (player2 g) ∧ player1 g ≠ "-"
     ∧ ∃ r c, (r < 3)%nat ∧ (c < 3)%nat
              ∧ board g = set_cell empty_board r c (player1 g)).

(** ** The text of a board *)

(** The text [get_board_as_string] produces for nine cells. *)
Definition rendering (c00 c01 c02 c10 c11 c12 c20 c21 c22 : string) : string :=
  nl +:+
  c00 +:+ "  |  " +:+ c01 +:+ "  |  " +:+ c02 +:+ nl +:+
  "--------------" +:+ nl +:+
  c10 +:+ "  |  " +:+ c11 +:+ "  |  " +:+ c12 +:+ nl +:+
  "--------------" +:+ nl +:+
  c20 +:+ "  |  " +:+ c21 +:+ "  |  " +:+ c22 +:+ nl.

(** The lines of a text. *)
Fixpoint split_lines (s : string) : list string :=
  match s with
  | EmptyString => [EmptyString]
  | String ch rest =>
      if Ascii.eqb ch (ascii_of_nat 10) then EmptyString :: split_lines rest
      else
        match split_lines rest with
        | [] => [String ch EmptyString]
        | l :: ls => String ch l :: ls
        end
  end.

(** The cells of a row joined by a separator. *)
Fixpoint join (sep : string) (cells : list string) : string :=
  match cells with
  | [] => EmptyString
  | [cell] => cell
  | cell :: rest => cell +:+ sep +:+ join sep rest
  end.

(** ** Sample games *)

Definition game_AB : Game := start_new_game "A" "B".

(** A holds (0,0) and (0,1), B holds (1,0) and (1,1); A is to move. *)
Definition game_before_win : Game :=
  play game_AB
    [("A", pos 0 0); ("B", pos 1 0); ("A", pos 0 1); ("B", pos 1 1)].

Definition game_won : Game := (move game_before_win "A" (pos 0 2)).1.

(** The same four moves when the first player's identifier is the empty
    string. *)
Definition game_anon_before_win : Game :=
  play (start_new_game EmptyString "B")
    [(EmptyString, pos 0 0); ("B", pos 1 0);
     (EmptyString, pos 0 1); ("B", pos 1 1)].

(** Eight moves without a line; the ninth, A at (2,2), fills the board. *)
Definition game_before_tie : Game :=
  play game_AB
    [("A", pos 0 0); ("B", pos 0 1); ("A", pos 0 2); ("B", pos 1 1);
     ("A", pos 1 0); ("B", pos 1 2); ("A", pos 2 1); ("B", pos 2 0)].

(** A has moved at the centre; B is to move. *)
Definition game_centre : Game := (move game_AB "A" (pos 1 1)).1.

(** ** Counting *)

(** How many cells of the board show [p]. *)
Definition count_marks (b : Board) (p : string) : nat :=
  length (filter (fun cell => cell = p) (concat b)).

(** How many of a sequence of calls to [move] are not refused with
    [InvalidMovement]. *)
Fixpoint moves_made (g : Game) (calls : list (string * Position)) : nat :=
  match calls with
  | [] => 0%nat
  | (p, position) :: rest =>
      (match (move g p position).2 with
       | Raise (InvalidMovement _) => 0
       | _ => 1
       end + moves_made (move g p position).1 rest)%nat
  end.

(** * Properties *)

(** ** Indexing *)

Section indexing.
Context {A : Type}.
Implicit Types (l : list A) (i : Z) (j : nat) (x : A).

Lemma py_index_of_nat l j :
  (j < length l)%nat → py_index l (Z.of_nat j) = Some j.
Proof.
  intros Hj. unfold py_index.
  destruct (Z.ltb_spec (Z.of_nat j) 0) as [?|_]; [lia|].
  destruct (Z.leb_spec 0 (Z.of_nat j)) as [_|?]; [|lia].
  destruct (Z.ltb_spec (Z.of_nat j) (Z.of_nat (length l))) as [_|?]; [|lia].
  simpl. by rewrite Nat2Z.id.
Qed.

Lemma py_index_lt l i j : py_index l i = Some j → (j < length l)%nat.
Proof.
  unfold py_index. intros H.
  destruct (0 <=? _) eqn:H0; [|done].
  destruct (_ <? Z.of_nat _) eqn:H1; [|done].
  simpl in H. injection H as <-. lia.
Qed.

Lemma py_getitem_of_nat l j x :
  l !! j = Some x → py_getitem l (Z.of_nat j) = Ok x.
Proof.
  intros Hx. unfold py_getitem.
  rewrite py_index_of_nat by (by eapply lookup_lt_Some).
  by rewrite Hx.
Qed.

Lemma py_getitem_Ok l i x :
  py_getitem l i = Ok x → ∃ j, py_index l i = Some j ∧ l !! j = Some x.
Proof.
  unfold py_getitem. destruct (py_index l i) as [j|]; [|done].
  destruct (l !! j) eqn:Hj; [|done]. intros [= ->]. eauto.
Qed.

Lemma py_getitem_Raise l i e : py_getitem l i = Raise e → e = IndexError.
Proof.
  unfold py_getitem. destruct (py_index l i) as [j|]; [|congruence].
  destruct (l !! j); congruence.
Qed.

Lemma py_setitem_Ok l i x l' :
  py_setitem l i x = Ok l' → ∃ j, py_index l i = Some j ∧ l' = <[j:=x]> l.
Proof.
  unfold py_setitem. destruct (py_index l i) as [j|]; [|done].
  intros [= <-]. eauto.
Qed.

Lemma py_setitem_Raise l i x e : py_setitem l i x = Raise e → e = IndexError.
Proof. unfold py_setitem. destruct (py_index l i); congruence. Qed.

End indexing.

Lemma pos_getitem_0 r c : py_getitem (pos r c) 0 = Ok (Z.of_nat r).
Proof. reflexivity. Qed.

Lemma pos_getitem_1 r c : py_getitem (pos r c) 1 = Ok (Z.of_nat c).
Proof. reflexivity. Qed.

(** Binding a computation that is known to return. *)
Lemma bind_Ok {A B} (f : A → result B) (m : result A) a :
  m = Ok a → m ≫= f = f a.
Proof. by intros ->. Qed.

Lemma bind_Ok_inv {A B} (f : A → result B) (m : result A) b :
  m ≫= f = Ok b → ∃ a, m = Ok a ∧ f a = Ok b.
Proof. destruct m; [eauto | done]. Qed.

Lemma bind_Raise_inv {A B} (f : A → result B) (m : result A) e :
  m ≫= f = Raise e → m = Raise e ∨ ∃ a, m = Ok a ∧ f a = Raise e.
Proof. destruct m as [a|e']; simpl; [right; eauto | intros [= ->]; by left]. Qed.

(** ** The board *)

Lemma board_is_full_spec b : _board_is_full b = true ↔ board_full b.
Proof.
  unfold _board_is_full, board_full.
  rewrite forallb_forall, Forall_forall.
  setoid_rewrite forallb_forall. setoid_rewrite Forall_forall.
  setoid_rewrite negb_true_iff. setoid_rewrite bool_decide_eq_false.
  setoid_rewrite <- list_elem_of_In. done.
Qed.

Lemma board_is_full_false b : _board_is_full b = false ↔ ¬ board_full b.
Proof. rewrite <- board_is_full_spec. by destruct (_board_is_full b). Qed.

Lemma position_is_valid_spec position :
  _position_is_valid position = true ↔ in_range position.
Proof.
  unfold _position_is_valid, in_range. rewrite bool_decide_eq_true. split.
  - unfold valid_positions. rewrite !elem_of_cons, elem_of_nil.
    intros H. repeat (destruct H as [H|H]); try done; subst position;
      eexists _, _; (split; [reflexivity | lia]).
  - intros (r & c & -> & Hr & Hc).
    assert (r = 0 ∨ r = 1 ∨ r = 2) as Hr' by lia.
    assert (c = 0 ∨ c = 1 ∨ c = 2) as Hc' by lia.
    unfold valid_positions.
    destruct Hr' as [Hr'|[Hr'|Hr']], Hc' as [Hc'|[Hc'|Hc']]; subst r c;
      repeat first [ by apply list_elem_of_here | apply list_elem_of_further ].
Qed.

Lemma pos_in_range r c : (r < 3)%nat → (c < 3)%nat → in_range (pos r c).
Proof. intros Hr Hc. exists (Z.of_nat r), (Z.of_nat c). split; [done | lia]. Qed.

Lemma in_range_pos position :
  in_range position → ∃ r c, (r < 3)%nat ∧ (c < 3)%nat ∧ position = pos r c.
Proof.
  intros (r & c & -> & Hr & Hc). exists (Z.to_nat r), (Z.to_nat c).
  unfold pos. rewrite !Z2Nat.id by lia. repeat split; lia.
Qed.

Lemma cell_at_Some b r c m :
  cell_at b r c = Some m ↔ ∃ row, b !! r = Some row ∧ row !! c = Some m.
Proof.
  unfold cell_at. destruct (b !! r) as [row|]; simpl.
  - split; [eauto | by intros (? & [= <-] & ?)].
  - split; [done | by intros (? & ? & ?)].
Qed.

Lemma wf_board_cell b r c :
  wf_board b → (r < 3)%nat → (c < 3)%nat → is_Some (cell_at b r c).
Proof.
  intros [Hlen Hrows] Hr Hc.
  destruct (lookup_lt_is_Some_2 b r) as [row Hrow]; [lia|].
  rewrite Forall_lookup in Hrows. specialize (Hrows _ _ Hrow). simpl in Hrows.
  destruct (lookup_lt_is_Some_2 row c) as [m Hm]; [lia|].
  exists m. apply cell_at_Some. eauto.
Qed.

Lemma cell_at_set_cell_eq b r c p :
  is_Some (cell_at b r c) → cell_at (set_cell b r c p) r c = Some p.
Proof.
  intros [m (row & Hrow & Hm)%cell_at_Some]. apply cell_at_Some.
  exists (<[c:=p]> row). split.
  - unfold set_cell. by rewrite list_lookup_alter_eq, Hrow.
  - apply list_lookup_insert_eq. by eapply lookup_lt_Some.
Qed.

Lemma cell_at_set_cell_ne b r c p r' c' :
  (r, c) ≠ (r', c') → cell_at (set_cell b r c p) r' c' = cell_at b r' c'.
Proof.
  intros Hne. unfold cell_at, set_cell.
  destruct (decide (r = r')) as [<-|Hr].
  - rewrite list_lookup_alter_eq. destruct (b !! r) as [row|]; simpl; [|done].
    apply list_lookup_insert_ne. congruence.
  - by rewrite list_lookup_alter_ne.
Qed.

Lemma wf_board_set_cell b r c p : wf_board b → wf_board (set_cell b r c p).
Proof.
  intros [Hlen Hrows]. unfold set_cell. split.
  - by rewrite length_alter.
  - apply Forall_alter; [done|]. intros row _ Hrow. by rewrite length_insert.
Qed.

Lemma wf_board_start p1 p2 : wf_board (board (start_new_game p1 p2)).
Proof. split; [done | by repeat constructor]. Qed.

(** On an existing cell the two helpers of [move] that index the board do
    what the specification says. *)
Lemma position_is_empty_spec b r c m :
  cell_at b r c = Some m →
  _position_is_empty_in_board (pos r c) b = Ok (bool_decide (m = "-")).
Proof.
  intros (row & Hrow & Hm)%cell_at_Some. unfold _position_is_empty_in_board.
  rewrite pos_getitem_0, pos_getitem_1. simpl.
  rewrite (py_getitem_of_nat _ _ _ Hrow). simpl.
  by rewrite (py_getitem_of_nat _ _ _ Hm).
Qed.

Lemma mark_spec b r c p :
  is_Some (cell_at b r c) → mark b (pos r c) p = Ok (set_cell b r c p).
Proof.
  intros [m (row & Hrow & Hm)%cell_at_Some]. unfold mark.
  rewrite pos_getitem_0, pos_getitem_1. simpl.
  rewrite (py_getitem_of_nat _ _ _ Hrow). simpl.
  unfold py_setitem.
  rewrite !py_index_of_nat by (by eapply lookup_lt_Some). simpl.
  f_equal. unfold set_cell. apply list_eq. intros i.
  destruct (decide (i = r)) as [->|Hi].
  - rewrite list_lookup_alter_eq, Hrow. simpl.
    apply list_lookup_insert_eq. by eapply lookup_lt_Some.
  - by rewrite list_lookup_alter_ne, list_lookup_insert_ne.
Qed.

(** ** Win detection *)

Lemma combinations_lines : combinations = map (map tuple_of) lines.
Proof. reflexivity. Qed.

(** The table lists exactly the three rows, three columns and two
    diagonals. *)
Lemma line_lines l : line l ↔ l ∈ lines.
Proof.
  unfold lines. rewrite !elem_of_cons, elem_of_nil. split.
  - intros [r Hr|c Hc| |].
    + assert (r = 0 ∨ r = 1 ∨ r = 2)%nat as [->|[->| ->]] by lia; tauto.
    + assert (c = 0 ∨ c = 1 ∨ c = 2)%nat as [->|[->| ->]] by lia; tauto.
    + tauto.
    + tauto.
  - intros H. repeat (destruct H as [H|H]); try done; subst l.
    + apply (line_row 0); lia.
    + apply (line_row 1); lia.
    + apply (line_row 2); lia.
    + apply (line_column 0); lia.
    + apply (line_column 1); lia.
    + apply (line_column 2); lia.
    + apply line_diagonal.
    + apply line_antidiagonal.
Qed.

Lemma line_cells l rc :
  line l → rc ∈ l → (rc.1 < 3)%nat ∧ (rc.2 < 3)%nat.
Proof.
  intros Hl Hrc. destruct Hl; repeat (apply elem_of_cons in Hrc as [->|Hrc]);
    try (by apply elem_of_nil in Hrc); simpl; lia.
Qed.

Lemma is_winning_combination_spec b p l :
  Forall (fun rc => is_Some (cell_at b rc.1 rc.2)) l →
  ∃ w, _is_winning_combination b (map tuple_of l) p = Ok w
       ∧ (w = true ↔ holds b p l).
Proof.
  unfold holds. induction 1 as [|[r c] l [m Hm] _ (w & IH & Hw)]; simpl.
  - exists true. split; [done|]. split; [constructor | done].
  - simpl in Hm. pose proof Hm as (row & Hrow & Hc)%cell_at_Some.
    rewrite (py_getitem_of_nat _ _ _ Hrow). simpl.
    rewrite (py_getitem_of_nat _ _ _ Hc). simpl.
    case_bool_decide as Hp.
    + exists false. split; [done|]. split; [done|].
      intros [Hhd _]%Forall_cons. simpl in Hhd. congruence.
    + subst m. exists w. split; [done|].
      rewrite Forall_cons. simpl. tauto.
Qed.

Lemma first_winning_spec b p ls :
  Forall (Forall (fun rc => is_Some (cell_at b rc.1 rc.2))) ls →
  first_winning b (map (map tuple_of) ls) p = Ok (Some p) ∧ Exists (holds b p) ls
  ∨ first_winning b (map (map tuple_of) ls) p = Ok None ∧ ¬ Exists (holds b p) ls.
Proof.
  induction 1 as [|l ls Hl _ IH]; simpl.
  - right. split; [done|]. by intros ?%Exists_nil.
  - destruct (is_winning_combination_spec b p l Hl) as (w & -> & Hw). simpl.
    destruct w.
    + left. split; [done|]. apply Exists_cons_hd. by apply Hw.
    + destruct IH as [[-> IH]|[-> IH]].
      * left. split; [done|]. by apply Exists_cons_tl.
      * right. split; [done|]. intros [Hhd|Htl]%Exists_cons; [|done].
        apply Hw in Hhd. done.
Qed.

Lemma completes_lines b p : completes b p ↔ Exists (holds b p) lines.
Proof.
  unfold completes. rewrite Exists_exists.
  split; intros (l & Hl & Hh); exists l; (split; [by apply line_lines | done]).
Qed.

Lemma lines_cells b :
  wf_board b → Forall (Forall (fun rc => is_Some (cell_at b rc.1 rc.2))) lines.
Proof.
  intros Hwf. apply Forall_forall. intros l Hl%line_lines.
  apply Forall_forall. intros rc Hrc.
  destruct (line_cells l rc Hl Hrc). by apply wf_board_cell.
Qed.

(** [_check_winning_combinations] returns the player exactly when one of
    the eight lines is entirely the player's, and [None] otherwise. *)
Lemma check_winning_combinations_spec b p :
  wf_board b →
  _check_winning_combinations b p = Ok (Some p) ∧ completes b p
  ∨ _check_winning_combinations b p = Ok None ∧ ¬ completes b p.
Proof.
  intros Hwf. unfold _check_winning_combinations.
  rewrite combinations_lines, completes_lines.
  apply first_winning_spec. by apply lines_cells.
Qed.

Lemma check_winning_combinations_win b p :
  wf_board b → completes b p → _check_winning_combinations b p = Ok (Some p).
Proof.
  intros Hwf Hc.
  destruct (check_winning_combinations_spec b p Hwf) as [[? _]|[_ ?]]; done.
Qed.

Lemma check_winning_combinations_none b p :
  wf_board b → ¬ completes b p → _check_winning_combinations b p = Ok None.
Proof.
  intros Hwf Hc.
  destruct (check_winning_combinations_spec b p Hwf) as [[_ ?]|[? _]]; done.
Qed.

(** ** Moves that pass the four checks *)

Lemma truthy_nonempty p : p ≠ EmptyString → truthy p = true.
Proof. by destruct p. Qed.

(** Rewrites [move] past its four checks and the marking of the cell, given
    a proof [H] that the move is valid. *)
Ltac pass_checks H :=
  let Hwf := fresh "Hwf" in
  destruct H as [Hwf ? ? ? ? ? ?];
  unfold move, get_next_turn; cbv zeta;
  match goal with Hw : winner _ = None |- _ => rewrite Hw end;
  match goal with
    Hf : ¬ board_full _ |- _ => rewrite (proj2 (board_is_full_false _) Hf)
  end;
  match goal with Ht : next_turn _ = Some _ |- _ => rewrite Ht end;
  rewrite (bool_decide_eq_false_2 (Some _ ≠ Some _)) by (by intros []);
  rewrite (proj2 (position_is_valid_spec _)) by (by apply pos_in_range);
  match goal with
    He : cell_at _ _ _ = Some "-" |- _ =>
      rewrite (position_is_empty_spec _ _ _ _ He);
      rewrite mark_spec by (by rewrite He)
  end;
  rewrite (bool_decide_eq_true_2 ("-" = "-") eq_refl);
  cbn [truthy_opt orb negb].

(** What a normal return of [move] implies, whatever the game: the caller
    was the player whose turn it was, and the turn passed to the player
    computed from the previous [next_turn]. *)
Lemma move_returns g p position g' :
  move g p position = (g', Ok ()) →
  next_turn g = Some p
  ∧ player1 g' = player1 g ∧ player2 g' = player2 g
  ∧ next_turn g' =
      Some (if bool_decide (next_turn g = Some (player2 g))
            then player1 g else player2 g).
Proof.
  unfold move, get_next_turn. cbv zeta.
  destruct (truthy_opt (winner g) || _board_is_full (board g)); [done|].
  case_bool_decide as Hturn; [done|].
  destruct (negb (_position_is_valid position)); [done|].
  destruct (_position_is_empty_in_board position (board g)) as [[]|]; try done.
  destruct (mark (board g) position p) as [b'|]; [|done].
  destruct (_check_winning_combinations b' p) as [w|]; [|done].
  destruct (truthy_opt w); [done|].
  destruct (_board_is_full b'); [done|].
  intros [= <-]. simpl. split; [|done].
  destruct (next_turn g) as [q|]; [|done].
  destruct (decide (p = q)) as [->|]; [done | congruence].
Qed.

(** ** What the helpers can raise *)

Lemma position_is_empty_raises position b e :
  _position_is_empty_in_board position b = Raise e → e = IndexError.
Proof.
  unfold _position_is_empty_in_board. intros H.
  repeat (apply bind_Raise_inv in H as [H|(? & _ & H)];
          [by eapply py_getitem_Raise|]).
  done.
Qed.

Lemma mark_raises b position p e : mark b position p = Raise e → e = IndexError.
Proof.
  unfold mark. intros H.
  repeat (apply bind_Raise_inv in H as [H|(? & _ & H)];
          [first [by eapply py_getitem_Raise | by eapply py_setitem_Raise]|]).
  by eapply py_setitem_Raise.
Qed.

Lemma is_winning_combination_raises b l p e :
  _is_winning_combination b l p = Raise e → e = IndexError.
Proof.
  induction l as [|position l IH]; simpl; [done|]. intros H.
  repeat (apply bind_Raise_inv in H as [H|(? & _ & H)];
          [by eapply py_getitem_Raise|]).
  case_bool_decide; [done | by apply IH].
Qed.

Lemma first_winning_raises b ls p e :
  first_winning b ls p = Raise e → e = IndexError.
Proof.
  induction ls as [|l ls IH]; simpl; [done|]. intros H.
  apply bind_Raise_inv in H as [H|([] & _ & H)];
    [by eapply is_winning_combination_raises | done | by apply IH].
Qed.

Lemma first_winning_Ok b ls p w :
  first_winning b ls p = Ok w → w = None ∨ w = Some p.
Proof.
  induction ls as [|l ls IH]; simpl; [intros [= <-]; by left|]. intros H.
  apply bind_Ok_inv in H as ([] & _ & H); [injection H as <-; by right | by apply IH].
Qed.

(** ** The effect of [move] on the game *)

Lemma set_cell_insert b r c p row :
  b !! r = Some row → <[r:=<[c:=p]> row]> b = set_cell b r c p.
Proof.
  intros Hrow. unfold set_cell. apply list_eq. intros i.
  destruct (decide (i = r)) as [->|Hi].
  - rewrite list_lookup_alter_eq, Hrow. simpl.
    apply list_lookup_insert_eq. by eapply lookup_lt_Some.
  - by rewrite list_lookup_alter_ne, list_lookup_insert_ne.
Qed.

(** When the occupancy check passes, marking succeeds and changes exactly
    one cell, which showed the empty marker. *)
Lemma mark_empty_cell b position p :
  _position_is_empty_in_board position b = Ok true →
  ∃ r c, cell_at b r c = Some "-" ∧ mark b position p = Ok (set_cell b r c p).
Proof.
  unfold _position_is_empty_in_board, mark. intros H.
  apply bind_Ok_inv in H as (zr & Hzr & H).
  apply bind_Ok_inv in H as (zc & Hzc & H).
  apply bind_Ok_inv in H as (row & Hrow & H).
  apply bind_Ok_inv in H as (cell & Hcell & H).
  injection H as H. apply bool_decide_eq_true in H. subst cell.
  rewrite Hzr, Hzc. simpl. rewrite Hrow. simpl.
  apply py_getitem_Ok in Hrow as (r & Hr & Hrow).
  apply py_getitem_Ok in Hcell as (c & Hc & Hcell).
  exists r, c. split; [apply cell_at_Some; eauto|].
  unfold py_setitem. rewrite Hc. simpl.
  assert (py_index (<[r:=<[c:=p]> row]> b) zr = py_index b zr) as Hidx.
  { unfold py_index. by rewrite length_insert. }
  replace (py_index b zr) with (Some r). simpl.
  by rewrite (set_cell_insert _ _ _ _ _ Hrow).
Qed.

(** [move] either leaves the game as it was, or marks one empty cell with
    the player and touches nothing but [next_turn] and [winner]; a winner it
    records is a truthy identifier.  It raises [InvalidMovement] only in the
    first case. *)
Lemma move_effect g p position :
  (move g p position).1 = g
  ∨ ∃ r c t w,
      cell_at (board g) r c = Some "-"
      ∧ (move g p position).1 =
          {| player1 := player1 g; player2 := player2 g;
             board := set_cell (board g) r c p;
             next_turn := t; winner := w |}
      ∧ (w = winner g ∨ w = Some p ∧ truthy p = true)
      ∧ (accepted (move g p position).2
         ∨ (move g p position).2 = Raise IndexError).
Proof.
  unfold move, get_next_turn. cbv zeta.
  destruct (truthy_opt (winner g) || _board_is_full (board g)); [by left|].
  case_bool_decide; [by left|].
  destruct (negb (_position_is_valid position)); [by left|].
  destruct (_position_is_empty_in_board position (board g))
    as [[]|] eqn:Hempty; [|by left..].
  destruct (mark_empty_cell _ _ p Hempty) as (r & c & Hcell & ->).
  right. exists r, c.
  destruct (_check_winning_combinations _ p) as [w|e] eqn:Hcheck.
  - destruct (truthy_opt w) eqn:Hw.
    + apply first_winning_Ok in Hcheck as [->| ->]; [done|].
      eexists _, _. split; [done|]. split; [reflexivity|].
      split; [by right|]. left. right. eauto.
    + destruct (_board_is_full _).
      * eexists _, _. split; [done|]. split; [reflexivity|].
        split; [by left|]. left. right. eauto.
      * eexists _, _. split; [done|]. split; [reflexivity|].
        split; [by left|]. left. by left.
  - apply first_winning_raises in Hcheck as ->.
    eexists _, _. split; [done|]. split; [reflexivity|].
    split; [by left|]. by right.
Qed.

Lemma accepted_not_invalid out msg :
  accepted out → out ≠ Raise (InvalidMovement msg).
Proof. intros [->|(? & ->)]; done. Qed.

(** A marked cell survives a call to [move]. *)
Lemma move_keeps_cell g p position r c m :
  cell_at (board g) r c = Some m → m ≠ "-" →
  cell_at (board (move g p position).1) r c = Some m.
Proof.
  intros Hm Hne.
  destruct (move_effect g p position)
    as [->|(r' & c' & t & w & Hcell & -> & _)]; [done|]. simpl.
  rewrite cell_at_set_cell_ne; [done|]. intros [= -> ->]. congruence.
Qed.

Lemma play_keeps_cell g calls r c m :
  cell_at (board g) r c = Some m → m ≠ "-" →
  cell_at (board (play g calls)) r c = Some m.
Proof.
  revert g. induction calls as [|[p position] calls IH]; intros g Hm Hne.
  - done.
  - simpl. apply IH; [|done]. by apply move_keeps_cell.
Qed.

(** A valid move is made: it marks the cell and is not rejected. *)
Lemma valid_move_accepted g p r c :
  valid_move g p r c →
  accepted (move g p (pos r c)).2
  ∧ board (move g p (pos r c)).1 = set_cell (board g) r c p.
Proof.
  intros H. pass_checks H.
  destruct (check_winning_combinations_spec (set_cell (board g) r c p) p)
    as [[-> _]|[-> _]]; [by apply wf_board_set_cell|..].
  - destruct (truthy_opt (Some p)); [split; [right; eauto | done]|].
    destruct (_board_is_full _); (split; [|done]); [right; eauto | by left].
  - cbn [truthy_opt].
    destruct (_board_is_full _); (split; [|done]); [right; eauto | by left].
Qed.

(** ** Invariants of the games the interface produces *)

Lemma start_new_game_inv p1 p2 : game_inv (start_new_game p1 p2).
Proof. split; [apply wf_board_start | by left]. Qed.

Lemma move_inv g p position : game_inv g → game_inv (move g p position).1.
Proof.
  intros [Hwf Hw].
  destruct (move_effect g p position)
    as [->|(r & c & t & w & _ & -> & Hw' & _)]; [done|].
  split; simpl; [by apply wf_board_set_cell|].
  destruct Hw' as [->|[-> ?]]; [done | by right].
Qed.

Lemma reachable_inv g : reachable g → game_inv g.
Proof.
  induction 1; [apply start_new_game_inv | by apply move_inv].
Qed.

(** A game that has a winner, or whose board is full, refuses every move. *)
Lemma game_over_refuses g p position :
  truthy_opt (winner g) = true ∨ board_full (board g) →
  move g p position = (g, Raise (InvalidMovement "Game is over.")).
Proof.
  intros H. unfold move. cbv zeta.
  replace (truthy_opt (winner g) || _board_is_full (board g)) with true; [done|].
  symmetry. apply orb_true_iff.
  destruct H as [?|?%board_is_full_spec]; auto.
Qed.

(** Once [move] has raised [GameOver], the game has a truthy winner or a
    full board. *)
Lemma game_over_terminal g p position g' msg :
  move g p position = (g', Raise (GameOver msg)) →
  truthy_opt (winner g') = true ∨ board_full (board g').
Proof.
  unfold move, get_next_turn. cbv zeta.
  destruct (truthy_opt (winner g) || _board_is_full (board g)); [done|].
  case_bool_decide; [done|].
  destruct (negb (_position_is_valid position)); [done|].
  destruct (_position_is_empty_in_board position (board g))
    as [[]|] eqn:Hempty;
    [| done | by apply position_is_empty_raises in Hempty as ->].
  destruct (mark (board g) position p) as [b'|] eqn:Hmark;
    [|by apply mark_raises in Hmark as ->].
  destruct (_check_winning_combinations b' p) as [w|] eqn:Hcheck;
    [|by apply first_winning_raises in Hcheck as ->].
  destruct (truthy_opt w) eqn:Hw; [intros [= <- _]; by left|].
  destruct (_board_is_full b') eqn:Hfull; [|done].
  intros [= <- _]. right. by apply board_is_full_spec.
Qed.

(** A call aimed at a marked cell is rejected by one of the four checks,
    whatever the state of the game. *)
Lemma occupied_rejected g q r c m :
  (r < 3)%nat → (c < 3)%nat →
  cell_at (board g) r c = Some m → m ≠ "-" →
  ∃ msg, move g q (pos r c) = (g, Raise (InvalidMovement msg)).
Proof.
  intros Hr Hc Hm Hne. unfold move, get_next_turn. cbv zeta.
  destruct (truthy_opt (winner g) || _board_is_full (board g)); [eauto|].
  case_bool_decide; [eauto|].
  rewrite (proj2 (position_is_valid_spec _)) by (by apply pos_in_range).
  rewrite (position_is_empty_spec _ _ _ _ Hm).
  rewrite bool_decide_eq_false_2 by done. simpl. eauto.
Qed.

(** ** Evaluating the sample games *)

Lemma reachable_play g calls : reachable g → reachable (play g calls).
Proof.
  revert g. induction calls as [|[p position] calls IH]; intros g Hg; [done|].
  simpl. apply IH. by constructor.
Qed.

Lemma completes_check b p :
  wf_board b → _check_winning_combinations b p = Ok (Some p) → completes b p.
Proof.
  intros Hwf Hcheck.
  destruct (check_winning_combinations_spec b p Hwf) as [[_ ?]|[Hnone _]];
    [done | congruence].
Qed.

Lemma not_completes_check b p :
  wf_board b → _check_winning_combinations b p = Ok None → ¬ completes b p.
Proof.
  intros Hwf Hcheck.
  destruct (check_winning_combinations_spec b p Hwf) as [[Hsome _]|[_ ?]];
    [congruence | done].
Qed.

Lemma wf_board_nine (c00 c01 c02 c10 c11 c12 c20 c21 c22 : string) :
  wf_board [[c00; c01; c02]; [c10; c11; c12]; [c20; c21; c22]].
Proof. split; [done | by repeat constructor]. Qed.

(** Settles a closed statement about the sample games by evaluation. *)
Ltac evaluate :=
  lazymatch goal with
  | |- wf_board _ => vm_compute; split; [reflexivity | repeat constructor]
  | |- ¬ board_full _ => apply board_is_full_false; vm_compute; reflexivity
  | |- board_full _ => apply board_is_full_spec; vm_compute; reflexivity
  | |- completes _ _ =>
      apply completes_check;
      [vm_compute; split; [reflexivity | repeat constructor]
      | vm_compute; reflexivity]
  | |- ¬ completes _ _ =>
      apply not_completes_check;
      [vm_compute; split; [reflexivity | repeat constructor]
      | vm_compute; reflexivity]
  | |- (_ < _)%nat => lia
  | |- _ ≠ _ => let H := fresh in intros H; vm_compute in H; discriminate H
  | |- _ = _ => vm_compute; reflexivity
  end.

(** Closes a goal with a fact that evaluates to it. *)
Ltac instance_of H :=
  let H' := fresh in
  pose proof H as H'; vm_compute in H' |- *; exact H'.

Lemma valid_move_before_win : valid_move game_before_win "A" 0 2.
Proof. split; evaluate. Qed.

Lemma valid_move_anon_before_win :
  valid_move game_anon_before_win EmptyString 0 2.
Proof. split; evaluate. Qed.

Lemma valid_move_before_tie : valid_move game_before_tie "A" 2 2.
Proof. split; evaluate. Qed.

Lemma valid_move_AB : valid_move game_AB "A" 1 1.
Proof. split; evaluate. Qed.

Lemma reachable_game_won : reachable game_won.
Proof. apply reachable_move, reachable_play, reachable_start. Qed.

(** ** Every call is rejected or valid *)

Lemma move_rejected_or_valid g p position :
  game_inv g →
  (∃ msg, move g p position = (g, Raise (InvalidMovement msg)))
  ∨ (∃ r c, position = pos r c ∧ valid_move g p r c).
Proof.
  intros [Hwf Hw]. unfold move, get_next_turn. cbv zeta.
  destruct (truthy_opt (winner g)) eqn:Htruthy; [left; eauto|].
  destruct (_board_is_full (board g)) eqn:Hfull; [left; eauto|].
  apply board_is_full_false in Hfull. simpl.
  case_bool_decide as Hturn; [left; eauto|].
  destruct (_position_is_valid position) eqn:Hvalid; [|left; eauto].
  apply position_is_valid_spec, in_range_pos in Hvalid
    as (r & c & Hr & Hc & ->). simpl.
  destruct (wf_board_cell _ r c Hwf Hr Hc) as [m Hm].
  rewrite (position_is_empty_spec _ _ _ _ Hm).
  case_bool_decide as Hempty; [|left; eauto]. subst m.
  right. exists r, c. split; [done|]. split; try done.
  destruct Hw as [?|?]; [done | congruence].
Qed.

(** The three outcomes of a valid move.  A line completed by a player whose
    identifier is empty goes unnoticed. *)
Lemma move_valid g p r c :
  valid_move g p r c →
  let b' := set_cell (board g) r c p in
  let next :=
    if bool_decide (next_turn g = Some (player2 g))
    then player1 g else player2 g in
  (completes b' p ∧ p ≠ EmptyString
   ∧ move g p (pos r c) =
       (mkGame (player1 g) (player2 g) b' None (Some p),
        Raise (GameOver (dq +:+ p +:+ dq +:+ " wins!"))))
  ∨ ((¬ completes b' p ∨ p = EmptyString) ∧ board_full b'
     ∧ move g p (pos r c) =
         (mkGame (player1 g) (player2 g) b' None None,
          Raise (GameOver "Game is tied!")))
  ∨ ((¬ completes b' p ∨ p = EmptyString) ∧ ¬ board_full b'
     ∧ move g p (pos r c) =
         (mkGame (player1 g) (player2 g) b' (Some next) None, Ok ())).
Proof.
  intros H b' next. subst b' next.
  assert (winner g = None) as Hw by (by destruct H).
  assert (next_turn g = Some p) as Hturn by (by destruct H).
  pass_checks H.
  destruct (check_winning_combinations_spec (set_cell (board g) r c p) p)
    as [[-> Hline]|[-> Hline]]; [by apply wf_board_set_cell|..];
    cbn [truthy_opt].
  - destruct p as [|ch p]; cbn [truthy].
    + destruct (_board_is_full _) eqn:Hfull.
      * apply board_is_full_spec in Hfull. right. left.
        unfold set_next_turn, set_board. simpl. rewrite Hw, ?Hturn. split_and!; auto.
      * apply board_is_full_false in Hfull. right. right.
        unfold set_next_turn, set_board. simpl. rewrite Hw, ?Hturn. split_and!; auto.
    + left. split_and!; auto.
  - destruct (_board_is_full _) eqn:Hfull.
    + apply board_is_full_spec in Hfull. right. left.
      unfold set_next_turn, set_board. simpl. rewrite Hw, ?Hturn. split_and!; auto.
    + apply board_is_full_false in Hfull. right. right.
      unfold set_next_turn, set_board. simpl. rewrite Hw, ?Hturn. split_and!; auto.
Qed.

Lemma move_players g p position :
  player1 (move g p position).1 = player1 g
  ∧ player2 (move g p position).1 = player2 g.
Proof.
  destruct (move_effect g p position)
    as [->|(r & c & t & w & _ & -> & _)]; done.
Qed.

Lemma move_turn_inv g p position :
  game_inv g → turn_inv g → turn_inv (move g p position).1.
Proof.
  intros Hinv Hturn.
  destruct (move_rejected_or_valid g p position Hinv)
    as [[msg ->]|(r & c & -> & Hvalid)]; [done|].
  destruct (move_valid g p r c Hvalid)
    as [(_ & _ & ->)|[(_ & _ & ->)|(_ & _ & ->)]]; unfold turn_inv; simpl;
    [by left | by left | right].
  case_bool_decide; auto.
Qed.

Lemma reachable_turn g : reachable g → turn_inv g.
Proof.
  induction 1 as [p1 p2|g p position Hg IH].
  - right. by left.
  - apply move_turn_inv; [by apply reachable_inv | done].
Qed.

(** In a game obtained through the interface, a player who makes a valid
    move is one of the two players. *)
Lemma reachable_mover g p r c :
  reachable g → valid_move g p r c → p = player1 g ∨ p = player2 g.
Proof.
  intros Hturn%reachable_turn [_ _ _ Hp _ _ _]. unfold turn_inv in Hturn.
  rewrite Hp in Hturn. destruct Hturn as [?|[[= ->]|[= ->]]]; auto. done.
Qed.

Lemma set_cell_id b r c m : cell_at b r c = Some m → set_cell b r c m = b.
Proof.
  intros (row & Hrow & Hm)%cell_at_Some. unfold set_cell.
  apply list_eq. intros i. destruct (decide (i = r)) as [->|Hi].
  - rewrite list_lookup_alter_eq, Hrow. simpl. by rewrite list_insert_id.
  - by rewrite list_lookup_alter_ne.
Qed.

Lemma completes_dash_empty : completes empty_board "-".
Proof.
  exists [(0, 0); (0, 1); (0, 2)]%nat.
  split; [apply (line_row 0); lia | by repeat constructor].
Qed.

Lemma completes_dash_one_mark r c m :
  completes (set_cell empty_board r c m) "-".
Proof.
  destruct (decide (r = 0%nat)) as [->|Hr].
  - exists [(1, 0); (1, 1); (1, 2)]%nat.
    split; [apply (line_row 1); lia|].
    repeat apply Forall_cons_2; [..|apply Forall_nil_2];
      cbv beta; cbn [fst snd]; by rewrite cell_at_set_cell_ne.
  - exists [(0, 0); (0, 1); (0, 2)]%nat.
    split; [apply (line_row 0); lia|].
    repeat apply Forall_cons_2; [..|apply Forall_nil_2];
      cbv beta; cbn [fst snd];
      (rewrite cell_at_set_cell_ne; [done | by intros [= ? ?]]).
Qed.

(** A valid move by a player called [-] ends the game. *)
Lemma dash_move_terminal g r c :
  dash_inv g → valid_move g "-" r c → terminal (move g "-" (pos r c)).1.
Proof.
  intros Hdash Hvalid.
  assert (set_cell (board g) r c "-" = board g) as Hsame.
  { apply set_cell_id. by destruct Hvalid. }
  assert (completes (board g) "-") as Hline.
  { destruct Hdash as [[Hw|Hfull]|[[_ ->]|(_ & _ & r0 & c0 & _ & _ & ->)]].
    - destruct Hvalid as [_ Hnone _ _ _ _ _]. by rewrite Hnone in Hw.
    - by destruct Hvalid.
    - apply completes_dash_empty.
    - apply completes_dash_one_mark. }
  destruct (move_valid g "-" r c Hvalid)
    as [(_ & _ & ->)|[(_ & Hfull & ->)|([Hno|?] & _ & _)]].
  - by left.
  - by right.
  - by rewrite Hsame in Hno.
  - done.
Qed.

Lemma move_dash_inv g p position :
  game_inv g → player1 g = "-" ∨ player2 g = "-" →
  dash_inv g → dash_inv (move g p position).1.
Proof.
  intros Hinv Hplayers Hdash.
  destruct (move_rejected_or_valid g p position Hinv)
    as [[msg ->]|(r & c & -> & Hvalid)]; [done|].
  destruct (decide (p = "-")) as [->|Hp]; [left; by apply dash_move_terminal|].
  pose proof Hvalid as [_ Hnone Hnotfull Hturn Hr Hc _].
  destruct (move_valid g p r c Hvalid)
    as [(_ & ? & ->)|[(_ & Hfull & ->)|(_ & _ & ->)]].
  - left. left. simpl. by apply truthy_nonempty.
  - left. by right.
  - destruct Hdash as [[Hw|Hfull]|[[Hnext Hboard]|(Hnext & Hp1 & _)]].
    + by rewrite Hnone in Hw.
    + done.
    + rewrite Hturn in Hnext. injection Hnext as Hnext. subst p.
      destruct Hplayers as [?|Hp2]; [done|].
      right. right. simpl. rewrite Hturn, Hboard.
      rewrite bool_decide_eq_false_2 by congruence. eauto 10.
    + rewrite Hturn in Hnext. injection Hnext as Hnext. subst p.
      by destruct Hplayers.
Qed.

Lemma reachable_dash g :
  reachable g → player1 g = "-" ∨ player2 g = "-" → dash_inv g.
Proof.
  induction 1 as [p1 p2|g p position Hg IH]; intros Hplayers.
  - right. by left.
  - destruct (move_players g p position) as [H1 H2].
    rewrite H1, H2 in Hplayers.
    apply move_dash_inv; [by apply reachable_inv | done | by apply IH].
Qed.

Lemma play_terminal g calls : terminal g → play g calls = g.
Proof.
  intros Hterm. induction calls as [|[p position] calls IH]; [done|].
  simpl. by rewrite (game_over_refuses g p position Hterm).
Qed.

(** In a game obtained through the interface, a position at which a move
    has been made takes no second move, whoever tries and whenever. *)
Lemma position_accepted_once g p r c calls q :
  reachable g → valid_move g p r c →
  ∃ msg,
    move (play (move g p (pos r c)).1 calls) q (pos r c)
    = (play (move g p (pos r c)).1 calls, Raise (InvalidMovement msg)).
Proof.
  intros Hreach Hvalid.
  destruct (decide (p = "-")) as [->|Hp].
  - assert (terminal (move g "-" (pos r c)).1) as Hterm.
    { apply dash_move_terminal; [|done]. apply reachable_dash; [done|].
      destruct (reachable_mover g "-" r c Hreach Hvalid); auto. }
    rewrite (play_terminal _ calls Hterm).
    rewrite (game_over_refuses _ q (pos r c) Hterm). eauto.
  - pose proof Hvalid as [? _ _ _ Hr Hc Hempty].
    destruct (valid_move_accepted g p r c Hvalid) as [_ Hboard].
    eapply occupied_rejected; [done..| |done].
    apply play_keeps_cell; [|done].
    rewrite Hboard. apply cell_at_set_cell_eq. by rewrite Hempty.
Qed.

(** * The properties of the specification *)

(** ** C1: a winning move *)

(** C1 (as amended): a valid move by a player [p] with a non-empty
    identifier that completes one of the eight lines (three rows, three
    columns, two diagonals, all three cells holding [p]) leaves the game with
    the cell marked, [winner = p] and [next_turn = None], and raises
    [GameOver] with the message ["p" wins!], the identifier in double
    quotes.  The state paired with the exception is the one at the moment it
    is raised, so the three mutations precede the signal. *)
Theorem move_win g p r c :
  valid_move g p r c →
  completes (set_cell (board g) r c p) p →
  p ≠ EmptyString →
  move g p (pos r c) =
    ({| player1 := player1 g; player2 := player2 g;
        board := set_cell (board g) r c p;
        next_turn := None; winner := Some p |},
     Raise (GameOver (dq +:+ p +:+ dq +:+ " wins!"))).
Proof.
  intros H Hline Hp. pass_checks H.
  rewrite check_winning_combinations_win
    by (by try apply wf_board_set_cell).
  cbn [truthy_opt]. by rewrite truthy_nonempty.
Qed.

Lemma move_win_witness :
  valid_move game_before_win "A" 0 2
  ∧ completes (set_cell (board game_before_win) 0 2 "A") "A"
  ∧ "A" ≠ EmptyString
  ∧ move game_before_win "A" (pos 0 2) =
      ({| player1 := "A"; player2 := "B";
          board := [["A"; "A"; "A"]; ["B"; "B"; "-"]; ["-"; "-"; "-"]];
          next_turn := None; winner := Some "A" |},
       Raise (GameOver (dq +:+ "A" +:+ dq +:+ " wins!"))).
Proof.
  split; [apply valid_move_before_win|].
  split; [evaluate|]. split; [done|].
  instance_of (move_win game_before_win "A" 0 2 valid_move_before_win
                 ltac:(evaluate) ltac:(done)).
Defined.

(** Against C1 as stated: when A completes the top row the message of
    [GameOver] is not [A wins!], the identifier being quoted; and when the
    player who completes the top row has the empty string as identifier,
    [move] returns normally, records no winner and passes the turn on. *)
Lemma move_win_counterexample :
  valid_move game_before_win "A" 0 2
  ∧ completes (set_cell (board game_before_win) 0 2 "A") "A"
  ∧ (move game_before_win "A" (pos 0 2)).2 ≠ Raise (GameOver "A wins!")
  ∧ valid_move game_anon_before_win EmptyString 0 2
  ∧ completes (set_cell (board game_anon_before_win) 0 2 EmptyString)
      EmptyString
  ∧ move game_anon_before_win EmptyString (pos 0 2) =
      ({| player1 := EmptyString; player2 := "B";
          board := [[EmptyString; EmptyString; EmptyString];
                    ["B"; "B"; "-"]; ["-"; "-"; "-"]];
          next_turn := Some "B"; winner := None |},
       Ok ()).
Proof.
  split; [apply valid_move_before_win|]. split; [evaluate|].
  split; [evaluate|].
  split; [apply valid_move_anon_before_win|]. split; evaluate.
Qed.

(** ** C2: a game that is over *)

(** C2 (as amended): in a game obtained through the interface whose winner
    is set or whose board is full, and likewise in the game any call that
    raised [GameOver] leaves behind, every call to [move], by any player at
    any position, leaves the game as it is and raises [InvalidMovement] with
    the message [Game is over.] (with the full stop).  Nothing is assumed of
    the player or the position, so this check comes before the other three. *)
Theorem move_game_over g :
  reachable g →
  (winner g ≠ None ∨ board_full (board g) →
   ∀ p position,
     move g p position = (g, Raise (InvalidMovement "Game is over.")))
  ∧ (∀ q position' g' msg,
       move g q position' = (g', Raise (GameOver msg)) →
       ∀ p position,
         move g' p position = (g', Raise (InvalidMovement "Game is over."))).
Proof.
  intros [_ Hw]%reachable_inv. split.
  - intros Hover p position. apply game_over_refuses.
    destruct Hover as [Hset|?]; [left | by right].
    by destruct Hw.
  - intros q position' g' msg Hmove p position.
    apply game_over_refuses. by eapply game_over_terminal.
Qed.

Lemma move_game_over_witness :
  reachable game_won
  ∧ winner game_won ≠ None
  ∧ move game_won "B" (pos 2 2)
    = (game_won, Raise (InvalidMovement "Game is over.")).
Proof.
  assert (winner game_won ≠ None) as Hwinner by evaluate.
  split; [apply reachable_game_won|]. split; [done|].
  instance_of (proj1 (move_game_over game_won reachable_game_won)
                 (or_introl Hwinner) "B" (pos 2 2)).
Defined.

(** Against C2 as stated: the message raised on a game that has a winner is
    not [Game is over]; it ends with a full stop. *)
Lemma move_game_over_counterexample :
  reachable game_won
  ∧ winner game_won = Some "A"
  ∧ (move game_won "B" (pos 2 2)).2
    = Raise (InvalidMovement "Game is over.")
  ∧ (move game_won "B" (pos 2 2)).2
    ≠ Raise (InvalidMovement "Game is over").
Proof.
  split; [apply reachable_game_won|]. repeat split; evaluate.
Qed.

(** ** C3: a move after which the game goes on *)

(** C3: a valid move that neither completes a line nor fills the board
    returns normally with the cell marked and [next_turn] set to [player1]
    if it was [player2] and to [player2] otherwise.  Hence the turn passes
    from [player1] to [player2] and from [player2] to [player1]; in a game
    obtained through the interface the mover is one of the two, and then the
    next move that returns normally is made by the other player and hands the
    turn back: over successive successful moves [next_turn] alternates. *)
Theorem move_continue g p r c :
  valid_move g p r c →
  ¬ completes (set_cell (board g) r c p) p →
  ¬ board_full (set_cell (board g) r c p) →
  let next :=
    if bool_decide (next_turn g = Some (player2 g))
    then player1 g else player2 g in
  let g' :=
    {| player1 := player1 g; player2 := player2 g;
       board := set_cell (board g) r c p;
       next_turn := Some next; winner := None |} in
  move g p (pos r c) = (g', Ok ())
  ∧ (p = player1 g → next = player2 g)
  ∧ (p = player2 g → next = player1 g)
  ∧ (reachable g → p = player1 g ∨ p = player2 g)
  ∧ (p = player1 g ∨ p = player2 g →
     ∀ q position g'',
       move g' q position = (g'', Ok ()) →
       q = next ∧ next_turn g'' = Some p).
Proof.
  intros H Hline Hfull next g'.
  assert (next_turn g = Some p) as Hturn by (by destruct H).
  assert (p = player1 g → next = player2 g) as H1.
  { intros ->. subst next. rewrite Hturn. case_bool_decide; congruence. }
  assert (p = player2 g → next = player1 g) as H2.
  { intros ->. subst next. rewrite Hturn. by rewrite bool_decide_eq_true_2. }
  split; [|split; [done|split; [done|split]]].
  - subst g' next. pass_checks H.
    rewrite check_winning_combinations_none
      by (by try apply wf_board_set_cell).
    cbn [truthy_opt].
    rewrite (proj2 (board_is_full_false _) Hfull).
    unfold set_next_turn, set_board. simpl. rewrite Hturn.
    by match goal with Hw : winner g = None |- _ => rewrite Hw end.
  - intros Hreach. by eapply reachable_mover.
  - intros Hp q position g'' Hmove.
    apply move_returns in Hmove as (Hq & _ & _ & ->).
    simpl in *. injection Hq as <-. split; [done|]. f_equal.
    case_bool_decide as Hn.
    + injection Hn as Hn. destruct Hp as [->| ->]; [done|].
      by rewrite H2 in *.
    + destruct Hp as [->| ->]; [|done].
      rewrite H1 in Hn; done.
Qed.

Lemma move_continue_witness :
  valid_move game_AB "A" 1 1
  ∧ ¬ completes (set_cell (board game_AB) 1 1 "A") "A"
  ∧ ¬ board_full (set_cell (board game_AB) 1 1 "A")
  ∧ move game_AB "A" (pos 1 1) =
      ({| player1 := "A"; player2 := "B";
          board := [["-"; "-"; "-"]; ["-"; "A"; "-"]; ["-"; "-"; "-"]];
          next_turn := Some "B"; winner := None |},
       Ok ()).
Proof.
  split; [apply valid_move_AB|]. split; [evaluate|]. split; [evaluate|].
  instance_of (proj1 (move_continue game_AB "A" 1 1 valid_move_AB
                        ltac:(evaluate) ltac:(evaluate))).
Defined.

(** ** C4: a tie *)

(** C4: a valid move that completes no line but leaves the board full sets
    [next_turn = None], leaves [winner = None] and raises
    [GameOver("Game is tied!")]; [get_next_turn] then returns [None]. *)
Theorem move_tie g p r c :
  valid_move g p r c →
  ¬ completes (set_cell (board g) r c p) p →
  board_full (set_cell (board g) r c p) →
  move g p (pos r c) =
    ({| player1 := player1 g; player2 := player2 g;
        board := set_cell (board g) r c p;
        next_turn := None; winner := None |},
     Raise (GameOver "Game is tied!"))
  ∧ get_next_turn (move g p (pos r c)).1 = None
  ∧ get_winner (move g p (pos r c)).1 = None.
Proof.
  intros H Hline Hfull.
  assert (move g p (pos r c) =
    ({| player1 := player1 g; player2 := player2 g;
        board := set_cell (board g) r c p;
        next_turn := None; winner := None |},
     Raise (GameOver "Game is tied!"))) as ->; [|done].
  pass_checks H.
  rewrite check_winning_combinations_none
    by (by try apply wf_board_set_cell).
  cbn [truthy_opt].
  rewrite (proj2 (board_is_full_spec _) Hfull).
  unfold set_next_turn, set_board. simpl. by f_equal; f_equal.
Qed.

Lemma move_tie_witness :
  valid_move game_before_tie "A" 2 2
  ∧ ¬ completes (set_cell (board game_before_tie) 2 2 "A") "A"
  ∧ board_full (set_cell (board game_before_tie) 2 2 "A")
  ∧ move game_before_tie "A" (pos 2 2) =
      ({| player1 := "A"; player2 := "B";
          board := [["A"; "B"; "A"]; ["A"; "B"; "B"]; ["B"; "A"; "A"]];
          next_turn := None; winner := None |},
       Raise (GameOver "Game is tied!")).
Proof.
  split; [apply valid_move_before_tie|]. split; [evaluate|]. split; [evaluate|].
  instance_of (proj1 (move_tie game_before_tie "A" 2 2 valid_move_before_tie
                        ltac:(evaluate) ltac:(evaluate))).
Defined.

(** ** C5: a call out of turn *)

(** C5 (as amended): in a game with no winner and a board that is not full,
    a call by a player other than [next_turn] leaves the game as it is and
    raises [InvalidMovement] whose message is [str(next_turn)] in double
    quotes followed by [ moves next.]; the position plays no part, so this
    check comes after the game-over check and before the other two. *)
Theorem move_wrong_turn g p position :
  winner g = None →
  ¬ board_full (board g) →
  next_turn g ≠ Some p →
  move g p position =
    (g, Raise (InvalidMovement
                 (dq +:+ py_str (next_turn g) +:+ dq +:+ " moves next."))).
Proof.
  intros Hw Hfull Hturn. unfold move, get_next_turn. cbv zeta.
  rewrite Hw, (proj2 (board_is_full_false _) Hfull).
  by rewrite bool_decide_eq_true_2.
Qed.

Lemma move_wrong_turn_witness :
  winner game_AB = None
  ∧ ¬ board_full (board game_AB)
  ∧ next_turn game_AB ≠ Some "B"
  ∧ move game_AB "B" (pos 1 1) =
      (game_AB,
       Raise (InvalidMovement (dq +:+ "A" +:+ dq +:+ " moves next."))).
Proof.
  split; [evaluate|]. split; [evaluate|]. split; [evaluate|].
  instance_of (move_wrong_turn game_AB "B" (pos 1 1)
                 ltac:(evaluate) ltac:(evaluate) ltac:(evaluate)).
Defined.

(** Against C5 as stated: the message raised when B calls out of turn is
    not [A moves next]; the identifier is quoted and a full stop follows. *)
Lemma move_wrong_turn_counterexample :
  winner game_AB = None
  ∧ ¬ board_full (board game_AB)
  ∧ next_turn game_AB = Some "A"
  ∧ (move game_AB "B" (pos 1 1)).2
    = Raise (InvalidMovement (dq +:+ "A" +:+ dq +:+ " moves next."))
  ∧ (move game_AB "B" (pos 1 1)).2
    ≠ Raise (InvalidMovement "A moves next").
Proof. repeat split; evaluate. Qed.

(** ** C6: a position out of range *)

(** C6 (as amended): in a game with no winner and a board that is not full,
    a call by the player whose turn it is raises [InvalidMovement] with the
    message [Position out of range.] (with the full stop) exactly when the
    position is not one of the nine pairs of {0,1,2} x {0,1,2}; the game is
    then unchanged, a tuple whose length is not two is always out of range,
    and the board is not consulted, so this check comes before the occupancy
    check. *)
Theorem move_out_of_range g p position :
  winner g = None →
  ¬ board_full (board g) →
  next_turn g = Some p →
  ((move g p position).2 = Raise (InvalidMovement "Position out of range.")
   ↔ ¬ in_range position)
  ∧ (¬ in_range position → (move g p position).1 = g)
  ∧ (length position ≠ 2%nat → ¬ in_range position).
Proof.
  intros Hw Hfull Hturn.
  assert (¬ in_range position →
          move g p position
          = (g, Raise (InvalidMovement "Position out of range."))) as Hout.
  { intros Hrange. unfold move, get_next_turn. cbv zeta.
    rewrite Hw, (proj2 (board_is_full_false _) Hfull), Hturn.
    rewrite bool_decide_eq_false_2 by (by intros []).
    destruct (_position_is_valid position) eqn:Hvalid; [|done].
    by apply position_is_valid_spec in Hvalid. }
  split; [split|split].
  - intros Hmove Hrange%position_is_valid_spec. revert Hmove.
    unfold move, get_next_turn. cbv zeta.
    rewrite Hw, (proj2 (board_is_full_false _) Hfull), Hturn, Hrange.
    rewrite bool_decide_eq_false_2 by (by intros []).
    cbn [truthy_opt orb negb].
    destruct (_position_is_empty_in_board position (board g))
      as [[]|] eqn:Hempty;
      [| done | by apply position_is_empty_raises in Hempty as ->].
    destruct (mark (board g) position p) as [b'|] eqn:Hmark;
      [|by apply mark_raises in Hmark as ->].
    destruct (_check_winning_combinations b' p) as [w|] eqn:Hcheck;
      [|by apply first_winning_raises in Hcheck as ->].
    destruct (truthy_opt w); [done|]. by destruct (_board_is_full b').
  - intros Hrange. by rewrite Hout.
  - intros Hrange. by rewrite Hout.
  - intros Hlen (r & c & -> & _). done.
Qed.

Lemma not_in_range_1_3 : ¬ in_range [1; 3].
Proof. intros (r & c & [= <- <-] & _ & ?). lia. Qed.

Lemma move_out_of_range_witness :
  winner game_AB = None
  ∧ ¬ board_full (board game_AB)
  ∧ next_turn game_AB = Some "A"
  ∧ ((move game_AB "A" [1; 3]).2
     = Raise (InvalidMovement "Position out of range.")
     ↔ ¬ in_range [1; 3]).
Proof.
  split; [evaluate|]. split; [evaluate|]. split; [evaluate|].
  apply (move_out_of_range game_AB "A" [1; 3]); evaluate.
Defined.

(** Against C6 as stated: for the out-of-range position (1,3), and for the
    three-element tuple (0,0,1), the message raised is not
    [Position out of range]; it ends with a full stop. *)
Lemma move_out_of_range_counterexample :
  winner game_AB = None
  ∧ ¬ board_full (board game_AB)
  ∧ next_turn game_AB = Some "A"
  ∧ ¬ in_range [1; 3]
  ∧ (move game_AB "A" [1; 3]).2
    = Raise (InvalidMovement "Position out of range.")
  ∧ (move game_AB "A" [1; 3]).2
    ≠ Raise (InvalidMovement "Position out of range")
  ∧ (move game_AB "A" [0; 0; 1]).2
    ≠ Raise (InvalidMovement "Position out of range").
Proof.
  split; [evaluate|]. split; [evaluate|]. split; [evaluate|].
  split; [apply not_in_range_1_3|]. repeat split; evaluate.
Qed.

(** ** C7: a position already taken *)

(** C7 (as amended): in a game with no winner and a board that is not full,
    take a call by the player whose turn it is at an in-range position.  If
    the cell is marked, the call leaves the game as it is and raises
    [InvalidMovement] with the message [Position already taken.] (with the
    full stop).  If the cell is empty the move is made and the cell holds the
    player's mark; in a game obtained through the interface, and in any game
    when the mark is not the empty marker itself, every later call at the
    same position, by any player and after any further calls, is rejected
    with [InvalidMovement]: the position is accepted once. *)
Theorem move_position_taken g p r c m :
  winner g = None →
  ¬ board_full (board g) →
  next_turn g = Some p →
  (r < 3)%nat → (c < 3)%nat →
  cell_at (board g) r c = Some m →
  (m ≠ "-" →
   move g p (pos r c)
   = (g, Raise (InvalidMovement "Position already taken.")))
  ∧ (m = "-" → wf_board (board g) →
     accepted (move g p (pos r c)).2
     ∧ cell_at (board (move g p (pos r c)).1) r c = Some p
     ∧ (p ≠ "-" ∨ reachable g →
        ∀ calls q,
          ∃ msg,
            move (play (move g p (pos r c)).1 calls) q (pos r c)
            = (play (move g p (pos r c)).1 calls,
               Raise (InvalidMovement msg)))).
Proof.
  intros Hw Hfull Hturn Hr Hc Hm. split.
  - intros Hne. unfold move, get_next_turn. cbv zeta.
    rewrite Hw, (proj2 (board_is_full_false _) Hfull), Hturn.
    rewrite bool_decide_eq_false_2 by (by intros []).
    rewrite (proj2 (position_is_valid_spec _)) by (by apply pos_in_range).
    rewrite (position_is_empty_spec _ _ _ _ Hm).
    by rewrite bool_decide_eq_false_2.
  - intros -> Hwf.
    destruct (valid_move_accepted g p r c) as [Hacc Hboard]; [done|].
    assert (cell_at (board (move g p (pos r c)).1) r c = Some p) as Hcell.
    { rewrite Hboard. apply cell_at_set_cell_eq. by rewrite Hm. }
    split; [done|]. split; [done|].
    intros [Hne|Hreach] calls q.
    + eapply occupied_rejected; [done..| |done]. by apply play_keeps_cell.
    + by apply position_accepted_once.
Qed.

Lemma move_position_taken_witness :
  winner game_centre = None
  ∧ ¬ board_full (board game_centre)
  ∧ next_turn game_centre = Some "B"
  ∧ cell_at (board game_centre) 1 1 = Some "A"
  ∧ move game_centre "B" (pos 1 1)
    = (game_centre, Raise (InvalidMovement "Position already taken.")).
Proof.
  split; [evaluate|]. split; [evaluate|]. split; [evaluate|].
  split; [evaluate|].
  instance_of (proj1 (move_position_taken game_centre "B" 1 1 "A"
                        ltac:(evaluate) ltac:(evaluate) ltac:(evaluate)
                        ltac:(lia) ltac:(lia) ltac:(evaluate))
                 ltac:(done)).
Defined.

(** Against C7 as stated: the message raised when B aims at the cell A has
    marked is not [Position already taken]; it ends with a full stop. *)
Lemma move_position_taken_counterexample :
  winner game_centre = None
  ∧ ¬ board_full (board game_centre)
  ∧ next_turn game_centre = Some "B"
  ∧ cell_at (board game_centre) 1 1 = Some "A"
  ∧ (move game_centre "B" (pos 1 1)).2
    = Raise (InvalidMovement "Position already taken.")
  ∧ (move game_centre "B" (pos 1 1)).2
    ≠ Raise (InvalidMovement "Position already taken").
Proof. repeat split; evaluate. Qed.

(** ** C8: marked cells *)

(** C8: a cell that holds a mark holds the same mark after any call to
    [move], whatever its arguments and outcome, and so after any sequence of
    calls; no other operation changes a game ([start_new_game] builds a new
    one, the three accessors return values only). *)
Theorem marked_cell_stays g r c m :
  cell_at (board g) r c = Some m →
  m ≠ "-" →
  (∀ p position, cell_at (board (move g p position).1) r c = Some m)
  ∧ (∀ calls, cell_at (board (play g calls)) r c = Some m).
Proof.
  intros Hm Hne. split.
  - intros p position. by apply move_keeps_cell.
  - intros calls. by apply play_keeps_cell.
Qed.

Lemma marked_cell_stays_witness :
  cell_at (board game_centre) 1 1 = Some "A"
  ∧ "A" ≠ "-"
  ∧ cell_at
      (board (play game_centre [("B", pos 1 1); ("B", pos 0 0); ("A", pos 2 2)]))
      1 1 = Some "A".
Proof.
  split; [evaluate|]. split; [done|].
  instance_of (proj2 (marked_cell_stays game_centre 1 1 "A"
                        ltac:(evaluate) ltac:(done))
                 [("B", pos 1 1); ("B", pos 0 0); ("A", pos 2 2)]).
Defined.

(** ** C9: the board as text *)

(** C9 (as amended): [get_board_as_string] only reads the game and returns
    a text of three rows between a leading and a trailing newline; the cells
    of a row are separated by a bar with two spaces on either side, the rows
    by a line of fourteen dashes, and each cell shows its content, mark or
    empty marker.  A new game shows the empty marker in all nine cells, and
    after the first player's move at (1,1) the centre shows that player's
    mark and the other eight cells the empty marker. *)
Theorem get_board_as_string_layout :
  (∀ p1 p2 t w c00 c01 c02 c10 c11 c12 c20 c21 c22,
     get_board_as_string
       (mkGame p1 p2 [[c00; c01; c02]; [c10; c11; c12]; [c20; c21; c22]] t w)
     = Ok (rendering c00 c01 c02 c10 c11 c12 c20 c21 c22))
  ∧ (∀ p1 p2,
       get_board_as_string (start_new_game p1 p2)
       = Ok (rendering "-" "-" "-" "-" "-" "-" "-" "-" "-"))
  ∧ (∀ p1 p2,
       get_board_as_string (move (start_new_game p1 p2) p1 (pos 1 1)).1
       = Ok (rendering "-" "-" "-" "-" p1 "-" "-" "-" "-")).
Proof.
  assert (∀ p1 p2 t w c00 c01 c02 c10 c11 c12 c20 c21 c22,
     get_board_as_string
       (mkGame p1 p2 [[c00; c01; c02]; [c10; c11; c12]; [c20; c21; c22]] t w)
     = Ok (rendering c00 c01 c02 c10 c11 c12 c20 c21 c22)) as Hlayout.
  { intros. reflexivity. }
  split; [done|]. split; [intros; apply Hlayout|].
  intros p1 p2.
  destruct (valid_move_accepted (start_new_game p1 p2) p1 1 1) as [_ Hboard].
  { split; try done; try lia.
    - apply wf_board_start.
    - apply board_is_full_false. reflexivity. }
  destruct (move (start_new_game p1 p2) p1 (pos 1 1)).1 as [q1 q2 b t w].
  simpl in Hboard. subst b. apply Hlayout.
Qed.

(** Against C9 as stated: the lines of the text for a new game.  A row of
    cells is not its three cells joined by [ | ], and the separator rows are
    not [-----]: the bar has two spaces on either side and the separator is
    fourteen dashes long; the text also starts and ends with a newline. *)
Lemma get_board_as_string_counterexample :
  ∃ text,
    get_board_as_string game_AB = Ok text
    ∧ split_lines text =
        [EmptyString;
         "-  |  -  |  -"; "--------------";
         "-  |  -  |  -"; "--------------";
         "-  |  -  |  -";
         EmptyString]
    ∧ "-  |  -  |  -" ≠ join " | " ["-"; "-"; "-"]
    ∧ "--------------" ≠ "-----".
Proof. eexists. split; [reflexivity|]. repeat split; evaluate. Qed.

(** ** C10: rejected calls change nothing *)

(** C10: a call to [move] that raises [InvalidMovement] leaves the game as
    it was: players, board, [next_turn] and [winner] keep their values. *)
Theorem move_invalid_unchanged g p position g' msg :
  move g p position = (g', Raise (InvalidMovement msg)) →
  g' = g
  ∧ player1 g' = player1 g ∧ player2 g' = player2 g
  ∧ board g' = board g
  ∧ next_turn g' = next_turn g ∧ winner g' = winner g.
Proof.
  intros Hmove. assert (g' = g) as ->; [|done].
  destruct (move_effect g p position)
    as [Hsame|(r & c & t & w & _ & _ & _ & Hout)].
  - by rewrite Hmove in Hsame.
  - rewrite Hmove in Hout. simpl in Hout.
    destruct Hout as [[?|[? ?]]|?]; done.
Qed.

Lemma move_invalid_unchanged_witness :
  move game_centre "B" (pos 1 1)
  = ((move game_centre "B" (pos 1 1)).1,
     Raise (InvalidMovement "Position already taken."))
  ∧ (move game_centre "B" (pos 1 1)).1 = game_centre.
Proof.
  assert (move game_centre "B" (pos 1 1)
          = ((move game_centre "B" (pos 1 1)).1,
             Raise (InvalidMovement "Position already taken.")))
    as Hmove by evaluate.
  split; [done|].
  exact (proj1 (move_invalid_unchanged _ _ _ _ _ Hmove)).
Defined.

(** * Further properties of the code *)

(** ** The helpers *)

Lemma py_index_wrap {A} (l : list A) (i : Z) :
  - Z.of_nat (length l) <= i < Z.of_nat (length l) →
  py_index l i = Some (Z.to_nat (i mod Z.of_nat (length l))).
Proof.
  intros Hi. unfold py_index.
  destruct (Z.ltb_spec i 0) as [Hneg|Hpos].
  - destruct (Z.leb_spec 0 (i + Z.of_nat (length l))); [|lia].
    destruct (Z.ltb_spec (i + Z.of_nat (length l)) (Z.of_nat (length l)));
      [|lia].
    simpl. do 2 f_equal. apply Z.mod_unique with (-1); lia.
  - destruct (Z.leb_spec 0 i); [|lia].
    destruct (Z.ltb_spec i (Z.of_nat (length l))); [|lia].
    simpl. do 2 f_equal. symmetry. apply Z.mod_small. lia.
Qed.

Lemma py_index_out {A} (l : list A) (i : Z) :
  ¬ (- Z.of_nat (length l) <= i < Z.of_nat (length l)) → py_index l i = None.
Proof.
  intros Hi. unfold py_index.
  destruct (Z.ltb_spec i 0) as [Hneg|Hpos].
  - destruct (Z.leb_spec 0 (i + Z.of_nat (length l))); [|done].
    destruct (Z.ltb_spec (i + Z.of_nat (length l)) (Z.of_nat (length l)));
      [lia | done].
  - destruct (Z.leb_spec 0 i); [|done].
    destruct (Z.ltb_spec i (Z.of_nat (length l))); [lia | done].
Qed.

Lemma py_getitem_wrap {A} (l : list A) (i : Z) x :
  - Z.of_nat (length l) <= i < Z.of_nat (length l) →
  l !! Z.to_nat (i mod Z.of_nat (length l)) = Some x →
  py_getitem l i = Ok x.
Proof.
  intros Hi Hx. unfold py_getitem. by rewrite py_index_wrap, Hx.
Qed.

Lemma py_getitem_out {A} (l : list A) (i : Z) :
  ¬ (- Z.of_nat (length l) <= i < Z.of_nat (length l)) →
  py_getitem l i = Raise IndexError.
Proof. intros Hi. unfold py_getitem. by rewrite py_index_out. Qed.

Lemma cell_at_empty_board r c :
  (r < 3)%nat → (c < 3)%nat → cell_at empty_board r c = Some "-".
Proof.
  intros Hr Hc. destruct r as [|[|[|r]]]; [..|lia];
    (destruct c as [|[|[|c]]]; [..|lia]); reflexivity.
Qed.

Lemma board_full_cell b r c m :
  board_full b → cell_at b r c = Some m → m ≠ "-".
Proof.
  intros Hfull (row & Hrow & Hm)%cell_at_Some.
  unfold board_full in Hfull. rewrite Forall_lookup in Hfull.
  specialize (Hfull _ _ Hrow). rewrite Forall_lookup in Hfull.
  by apply (Hfull _ _ Hm).
Qed.

Lemma holds_cell b p l r c :
  holds b p l → (r, c) ∈ l → cell_at b r c = Some p.
Proof.
  unfold holds. rewrite Forall_forall. intros Hh Hin. by apply (Hh (r, c)).
Qed.

(** Whatever cell is singled out, a line has another cell. *)
Lemma line_other_cell l r c :
  line l →
  ∃ r' c', (r', c') ∈ l ∧ (r', c') ≠ (r, c) ∧ (r' < 3)%nat ∧ (c' < 3)%nat.
Proof.
  intros Hl.
  assert (∃ rc1 rc2 rest, l = rc1 :: rc2 :: rest ∧ rc1 ≠ rc2)
    as ([r1 c1] & [r2 c2] & rest & -> & Hne).
  { destruct Hl; eexists _, _, _; (split; [reflexivity|]);
      intros [= ? ?]; lia. }
  destruct (decide ((r1, c1) = (r, c))) as [Heq|Hne1].
  - exists r2, c2. split; [apply list_elem_of_further, list_elem_of_here|].
    split; [congruence|].
    apply (line_cells _ (r2, c2) Hl).
    apply list_elem_of_further, list_elem_of_here.
  - exists r1, c1. split; [apply list_elem_of_here|]. split; [done|].
    apply (line_cells _ (r1, c1) Hl), list_elem_of_here.
Qed.

(** A line held on a board with at most one mark is a line of empty
    markers. *)
Lemma completes_one_mark r c p q :
  completes (set_cell empty_board r c p) q → q = "-".
Proof.
  intros (l & Hl & Hh).
  destruct (line_other_cell l r c Hl) as (r' & c' & Hin & Hne & Hr' & Hc').
  pose proof (holds_cell _ _ _ _ _ Hh Hin) as Hcell.
  rewrite cell_at_set_cell_ne in Hcell by congruence.
  rewrite cell_at_empty_board in Hcell by done. congruence.
Qed.

Lemma completes_empty_board q : completes empty_board q → q = "-".
Proof.
  intros (l & Hl & Hh).
  destruct (line_other_cell l 0 0 Hl) as (r' & c' & Hin & _ & Hr' & Hc').
  pose proof (holds_cell _ _ _ _ _ Hh Hin) as Hcell.
  rewrite cell_at_empty_board in Hcell by done. congruence.
Qed.

(** A mark of one player takes no line from another. *)
Lemma completes_set_cell_other b r c p q :
  p ≠ q → is_Some (cell_at b r c) →
  completes (set_cell b r c p) q → completes b q.
Proof.
  intros Hne Hcell (l & Hl & Hh). exists l. split; [done|].
  unfold holds in *. rewrite Forall_forall in *. intros [r' c'] Hin.
  specialize (Hh _ Hin). simpl in *.
  destruct (decide ((r, c) = (r', c'))) as [[= <- <-]|Hother].
  - rewrite cell_at_set_cell_eq in Hh by done. congruence.
  - by rewrite cell_at_set_cell_ne in Hh.
Qed.

(** X1: [_position_is_valid] accepts exactly the two-element tuples whose
    components both lie in 0..2; the repeated entries of its table change
    nothing, and negative indices, which Python indexing would accept, are
    refused. *)
Theorem position_is_valid_iff position :
  _position_is_valid position = true
  ↔ ∃ r c : Z, position = [r; c] ∧ 0 <= r <= 2 ∧ 0 <= c <= 2.
Proof. apply position_is_valid_spec. Qed.

(** X2: [_board_is_full] is true exactly when no cell of any row is the
    empty marker, whatever the shape of the board; in particular a board
    without rows, or with empty rows only, counts as full. *)
Theorem board_is_full_iff b :
  (_board_is_full b = true
   ↔ ∀ row cell, row ∈ b → cell ∈ row → cell ≠ "-")
  ∧ (concat b = [] → _board_is_full b = true).
Proof.
  assert (_board_is_full b = true
          ↔ ∀ row cell, row ∈ b → cell ∈ row → cell ≠ "-") as Hiff.
  { rewrite board_is_full_spec. unfold board_full. rewrite Forall_forall.
    setoid_rewrite Forall_forall. split; eauto. }
  split; [done|]. intros Hflat. apply Hiff. intros row cell Hrow Hcell.
  assert (In cell (concat b)) as Hin.
  { apply in_concat. exists row. by rewrite <- !list_elem_of_In. }
  by rewrite Hflat in Hin.
Qed.

Lemma wf_board_inv b :
  wf_board b →
  ∃ c00 c01 c02 c10 c11 c12 c20 c21 c22 : string,
    b = [[c00; c01; c02]; [c10; c11; c12]; [c20; c21; c22]].
Proof.
  intros [Hlen Hrows].
  destruct b as [|r0 [|r1 [|r2 [|? ?]]]]; try done.
  apply Forall_cons in Hrows as [H0 Hrows].
  apply Forall_cons in Hrows as [H1 Hrows].
  apply Forall_cons in Hrows as [H2 _].
  destruct r0 as [|? [|? [|? [|? ?]]]]; try done.
  destruct r1 as [|? [|? [|? [|? ?]]]]; try done.
  destruct r2 as [|? [|? [|? [|? ?]]]]; try done.
  by eexists _, _, _, _, _, _, _, _, _.
Qed.

Lemma six_cases (z : Z) :
  -3 <= z < 3 → z = -3 ∨ z = -2 ∨ z = -1 ∨ z = 0 ∨ z = 1 ∨ z = 2.
Proof. lia. Qed.

(** X3: on a three-by-three board [_position_is_empty_in_board] reads no
    more than the first two components of the tuple and follows Python's
    indexing: a component from -3 to 2 selects row or column [z mod 3], so
    (-1,-1) is the bottom right cell, and the answer tells whether that cell
    is the empty marker; any other component, and a tuple with fewer than
    two components, raises [IndexError]. *)
Theorem position_is_empty_in_board_wraps b zr zc rest :
  wf_board b →
  (-3 <= zr < 3 ∧ -3 <= zc < 3 →
   ∃ m, cell_at b (Z.to_nat (zr mod 3)) (Z.to_nat (zc mod 3)) = Some m
        ∧ _position_is_empty_in_board (zr :: zc :: rest) b
          = Ok (bool_decide (m = "-")))
  ∧ (¬ (-3 <= zr < 3 ∧ -3 <= zc < 3) →
     _position_is_empty_in_board (zr :: zc :: rest) b = Raise IndexError)
  ∧ _position_is_empty_in_board [zr] b = Raise IndexError
  ∧ _position_is_empty_in_board [] b = Raise IndexError.
Proof.
  intros (c00 & c01 & c02 & c10 & c11 & c12 & c20 & c21 & c22 & ->)%wf_board_inv.
  assert (∀ k : Z → result bool,
            py_getitem (zr :: zc :: rest) 0 ≫= k = k zr) as H0.
  { intros k. change 0 with (Z.of_nat 0).
    by rewrite (py_getitem_of_nat (zr :: zc :: rest) 0 zr). }
  assert (∀ k : Z → result bool,
            py_getitem (zr :: zc :: rest) 1 ≫= k = k zc) as H1.
  { intros k. change 1 with (Z.of_nat 1).
    by rewrite (py_getitem_of_nat (zr :: zc :: rest) 1 zc). }
  unfold _position_is_empty_in_board. rewrite H0, H1.
  split; [|split; [|by split]].
  - intros [Hr Hc]. apply six_cases in Hr, Hc.
    destruct Hr as [->|[->|[->|[->|[->| ->]]]]],
             Hc as [->|[->|[->|[->|[->| ->]]]]];
      eexists; (split; reflexivity).
  - intros Hout.
    destruct (decide (-3 <= zr < 3)) as [Hr|Hr].
    + assert (¬ -3 <= zc < 3) as Hc by tauto.
      apply six_cases in Hr.
      destruct Hr as [->|[->|[->|[->|[->| ->]]]]];
        lazymatch goal with
        | |- py_getitem ?B ?z ≫= _ = _ =>
            let row := eval vm_compute in (py_getitem B z) in
            change (py_getitem B z) with row
        end;
        cbn [mbind result_bind];
        by rewrite py_getitem_out by (simpl; lia).
    + by rewrite py_getitem_out by (simpl; lia).
Qed.

Lemma position_is_empty_in_board_wraps_witness :
  wf_board (board game_centre)
  ∧ _position_is_empty_in_board [-2; -2; 7] (board game_centre) = Ok false
  ∧ _position_is_empty_in_board [-1; -1] (board game_centre) = Ok true
  ∧ _position_is_empty_in_board [3; 0] (board game_centre) = Raise IndexError.
Proof.
  assert (wf_board (board game_centre)) as Hwf by evaluate.
  split; [done|].
  destruct (position_is_empty_in_board_wraps _ (-2) (-2) [7] Hwf)
    as (Hin & _).
  destruct (position_is_empty_in_board_wraps _ (-1) (-1) [] Hwf)
    as (Hin' & _).
  destruct (position_is_empty_in_board_wraps _ 3 0 [] Hwf) as (_ & Hout & _).
  destruct Hin as (m & Hm & ->); [lia|].
  destruct Hin' as (m' & Hm' & ->); [lia|].
  rewrite Hout by lia.
  vm_compute in Hm, Hm'. injection Hm as <-. injection Hm' as <-.
  by vm_compute.
Defined.

(** X4: on a three-by-three board, for a combination of any length made of
    in-range positions, [_is_winning_combination] returns whether every one
    of them holds the player's mark; for the empty combination that is
    [True]. *)
Theorem is_winning_combination_iff b p l :
  wf_board b →
  (∀ r c, (r, c) ∈ l → (r < 3)%nat ∧ (c < 3)%nat) →
  ∃ w, _is_winning_combination b (map tuple_of l) p = Ok w
       ∧ (w = true ↔ ∀ r c, (r, c) ∈ l → cell_at b r c = Some p).
Proof.
  intros Hwf Hl.
  destruct (is_winning_combination_spec b p l) as (w & Hw & Hiff).
  { apply Forall_forall. intros [r c] Hin.
    destruct (Hl r c Hin). by apply wf_board_cell. }
  exists w. split; [done|]. rewrite Hiff. unfold holds.
  rewrite Forall_forall. split.
  - intros H r c Hin. by apply (H (r, c)).
  - intros H [r c] Hin. by apply H.
Qed.

Lemma top_row_cells r c :
  (r, c) ∈ [(0, 0); (0, 1); (0, 2)]%nat → (r < 3)%nat ∧ (c < 3)%nat.
Proof.
  intros Hin. repeat (apply elem_of_cons in Hin as [[= -> ->]|Hin]);
    [lia..|by apply elem_of_nil in Hin].
Qed.

Lemma is_winning_combination_iff_witness :
  wf_board (board game_won)
  ∧ ∃ w, _is_winning_combination (board game_won)
           [pos 0 0; pos 0 1; pos 0 2] "A" = Ok w
         ∧ (w = true
            ↔ ∀ r c, (r, c) ∈ [(0, 0); (0, 1); (0, 2)]%nat →
                     cell_at (board game_won) r c = Some "A").
Proof.
  assert (wf_board (board game_won)) as Hwf by evaluate.
  split; [done|].
  instance_of (is_winning_combination_iff (board game_won) "A"
                 [(0, 0); (0, 1); (0, 2)]%nat Hwf top_row_cells).
Defined.

(** X5: on a three-by-three board [_check_winning_combinations] returns the
    player exactly when one of the three rows, three columns or two
    diagonals holds the player's mark in all three cells, and [None]
    otherwise; it returns nothing else and does not raise. *)
Theorem check_winning_combinations_iff b p :
  wf_board b →
  (_check_winning_combinations b p = Ok (Some p) ↔ completes b p)
  ∧ (_check_winning_combinations b p = Ok None ↔ ¬ completes b p)
  ∧ (_check_winning_combinations b p = Ok (Some p)
     ∨ _check_winning_combinations b p = Ok None).
Proof.
  intros Hwf.
  destruct (check_winning_combinations_spec b p Hwf) as [[-> H]|[-> H]].
  - split; [done|]. split; [|by left]. split; [done | tauto].
  - split; [|split; [done | by right]]. split; [done | tauto].
Qed.

Lemma check_winning_combinations_iff_witness :
  wf_board (board game_won)
  ∧ (_check_winning_combinations (board game_won) "A" = Ok (Some "A")
     ↔ completes (board game_won) "A")
  ∧ (_check_winning_combinations (board game_won) "B" = Ok None
     ↔ ¬ completes (board game_won) "B").
Proof.
  assert (wf_board (board game_won)) as Hwf by evaluate.
  split; [done|]. split.
  - instance_of (proj1 (check_winning_combinations_iff _ "A" Hwf)).
  - instance_of (proj1 (proj2 (check_winning_combinations_iff _ "B" Hwf))).
Defined.

(** ** New games and first moves *)

Lemma valid_move_start p1 p2 r c :
  (r < 3)%nat → (c < 3)%nat → valid_move (start_new_game p1 p2) p1 r c.
Proof.
  intros Hr Hc. split; try done.
  - apply wf_board_start.
  - apply board_is_full_false. reflexivity.
  - by apply cell_at_empty_board.
Qed.

Lemma one_mark_not_full r c p : ¬ board_full (set_cell empty_board r c p).
Proof.
  intros Hfull.
  destruct (line_other_cell _ r c line_diagonal)
    as (r' & c' & _ & Hne & Hr' & Hc').
  apply (board_full_cell _ r' c' "-" Hfull); [|done].
  rewrite cell_at_set_cell_ne by congruence. by apply cell_at_empty_board.
Qed.

(** X6: in a new game the first player's move succeeds at each of the nine
    positions: it marks the cell and hands the turn to the second player,
    also when the two identifiers are equal or the first is empty.  The one
    exception is a first player called [-]: the mark is the empty marker, the
    board stays empty and, every line being "held" by [-], the move wins the
    game at once.  A call by anyone else is refused with the first player's
    name. *)
Theorem first_move p1 p2 r c :
  (r < 3)%nat → (c < 3)%nat →
  (p1 ≠ "-" →
   move (start_new_game p1 p2) p1 (pos r c)
   = ({| player1 := p1; player2 := p2;
         board := set_cell empty_board r c p1;
         next_turn := Some p2; winner := None |}, Ok ()))
  ∧ (p1 = "-" →
     move (start_new_game p1 p2) p1 (pos r c)
     = ({| player1 := p1; player2 := p2; board := empty_board;
           next_turn := None; winner := Some "-" |},
        Raise (GameOver (dq +:+ "-" +:+ dq +:+ " wins!"))))
  ∧ (∀ q position,
       q ≠ p1 →
       move (start_new_game p1 p2) q position
       = (start_new_game p1 p2,
          Raise (InvalidMovement (dq +:+ p1 +:+ dq +:+ " moves next.")))).
Proof.
  intros Hr Hc.
  pose proof (move_valid _ _ _ _ (valid_move_start p1 p2 r c Hr Hc)) as Hmove.
  cbv zeta in Hmove. cbn [board player1 player2 next_turn start_new_game] in Hmove.
  change [["-"; "-"; "-"]; ["-"; "-"; "-"]; ["-"; "-"; "-"]]
    with empty_board in Hmove.
  split; [|split].
  - intros Hp1.
    destruct Hmove as [(Hline & _)|[(_ & Hfull & _)|(_ & _ & ->)]].
    + by apply completes_one_mark in Hline.
    + by apply one_mark_not_full in Hfull.
    + do 3 f_equal. case_bool_decide; congruence.
  - intros ->.
    assert (set_cell empty_board r c "-" = empty_board) as Hsame.
    { apply set_cell_id. by apply cell_at_empty_board. }
    rewrite Hsame in Hmove.
    destruct Hmove as [(_ & _ & ->)|[(_ & Hfull & _)|([Hno|?] & _)]].
    + done.
    + rewrite <- Hsame in Hfull. by apply one_mark_not_full in Hfull.
    + destruct Hno. apply completes_dash_empty.
    + done.
  - intros q position Hq. unfold move, get_next_turn. cbv zeta.
    cbn [truthy_opt winner board next_turn start_new_game].
    replace (_board_is_full _) with false by reflexivity.
    rewrite bool_decide_eq_true_2 by congruence. reflexivity.
Qed.

Lemma first_move_witness :
  (1 < 3)%nat ∧ (1 < 3)%nat
  ∧ move (start_new_game "A" "B") "A" (pos 1 1)
    = ({| player1 := "A"; player2 := "B";
          board := [["-"; "-"; "-"]; ["-"; "A"; "-"]; ["-"; "-"; "-"]];
          next_turn := Some "B"; winner := None |}, Ok ()).
Proof.
  split; [lia|]. split; [lia|].
  assert ("A" ≠ "-") as Hne by evaluate.
  instance_of (proj1 (first_move "A" "B" 1 1 ltac:(lia) ltac:(lia)) Hne).
Defined.

(** ** Games obtained through the interface *)

(** The messages [move] gives for a refused call. *)
Lemma invalid_messages g p position g' msg :
  move g p position = (g', Raise (InvalidMovement msg)) →
  msg = "Game is over."
  ∨ msg = dq +:+ py_str (next_turn g) +:+ dq +:+ " moves next."
  ∨ msg = "Position out of range."
  ∨ msg = "Position already taken.".
Proof.
  unfold move, get_next_turn. cbv zeta.
  destruct (truthy_opt (winner g) || _board_is_full (board g));
    [intros [= _ <-]; auto|].
  case_bool_decide; [intros [= _ <-]; auto|].
  destruct (negb (_position_is_valid position)); [intros [= _ <-]; auto|].
  destruct (_position_is_empty_in_board position (board g))
    as [[]|] eqn:Hempty;
    [| intros [= _ <-]; auto
     | by apply position_is_empty_raises in Hempty as ->].
  destruct (mark (board g) position p) as [b'|] eqn:Hmark;
    [|by apply mark_raises in Hmark as ->].
  destruct (_check_winning_combinations b' p) as [w|] eqn:Hcheck;
    [|by apply first_winning_raises in Hcheck as ->].
  destruct (truthy_opt w); [done|]. by destruct (_board_is_full b').
Qed.

(** X8: on a game obtained through the interface a call to [move], with any
    player and any tuple of integers, has one of seven outcomes: one of the
    four refusals, each leaving the game as it was, a normal return, or
    [GameOver] for a tie or for a win of the caller.  In particular the
    board is never indexed out of range: no [IndexError] escapes. *)
Theorem move_outcomes g p position :
  reachable g →
  (∃ msg,
     move g p position = (g, Raise (InvalidMovement msg))
     ∧ (msg = "Game is over."
        ∨ msg = dq +:+ py_str (next_turn g) +:+ dq +:+ " moves next."
        ∨ msg = "Position out of range."
        ∨ msg = "Position already taken."))
  ∨ (move g p position).2 = Ok ()
  ∨ (move g p position).2 = Raise (GameOver "Game is tied!")
  ∨ (move g p position).2 = Raise (GameOver (dq +:+ p +:+ dq +:+ " wins!")).
Proof.
  intros Hinv%reachable_inv.
  destruct (move_rejected_or_valid g p position Hinv)
    as [[msg Hmove]|(r & c & -> & Hvalid)].
  - left. exists msg. split; [done|]. by eapply invalid_messages.
  - right.
    destruct (move_valid g p r c Hvalid)
      as [(_ & _ & ->)|[(_ & _ & ->)|(_ & _ & ->)]]; auto.
Qed.

Lemma reachable_game_centre : reachable game_centre.
Proof. apply reachable_move, reachable_start. Qed.

Lemma reachable_game_before_tie : reachable game_before_tie.
Proof. apply reachable_play, reachable_start. Qed.

Lemma move_outcomes_witness :
  reachable game_centre
  ∧ ((∃ msg,
        move game_centre "B" [] = (game_centre, Raise (InvalidMovement msg))
        ∧ (msg = "Game is over."
           ∨ msg = dq +:+ py_str (next_turn game_centre) +:+ dq
                   +:+ " moves next."
           ∨ msg = "Position out of range."
           ∨ msg = "Position already taken."))
     ∨ (move game_centre "B" []).2 = Ok ()
     ∨ (move game_centre "B" []).2 = Raise (GameOver "Game is tied!")
     ∨ (move game_centre "B" []).2
       = Raise (GameOver (dq +:+ "B" +:+ dq +:+ " wins!"))).
Proof.
  split; [apply reachable_game_centre|].
  exact (move_outcomes game_centre "B" [] reachable_game_centre).
Defined.

(** X7: every game obtained through the interface has a three-by-three
    board; a recorded winner is a non-empty identifier of one of the two
    players and comes with [next_turn = None]; [next_turn] is [None] exactly
    when the game has a winner or the board is full, and otherwise names one
    of the two players. *)
Theorem reachable_invariants g :
  reachable g →
  wf_board (board g)
  ∧ (∀ w, winner g = Some w →
          w ≠ EmptyString ∧ (w = player1 g ∨ w = player2 g)
          ∧ next_turn g = None)
  ∧ (next_turn g = None ↔ winner g ≠ None ∨ board_full (board g))
  ∧ (∀ q, next_turn g = Some q → q = player1 g ∨ q = player2 g).
Proof.
  induction 1 as [p1 p2|g p position Hg IH].
  - split; [apply wf_board_start|]. split; [done|]. split.
    + split; [done|]. intros [?|Hfull]; [done|].
      by apply (board_full_cell _ 0 0 "-") in Hfull.
    + intros q [= <-]. by left.
  - destruct IH as (Hwf & Hwin & Hnone & Hturn).
    destruct (move_rejected_or_valid g p position (reachable_inv g Hg))
      as [[msg ->]|(r & c & -> & Hvalid)]; [done|].
    assert (p = player1 g ∨ p = player2 g) as Hp.
    { apply Hturn. by destruct Hvalid. }
    destruct (move_valid g p r c Hvalid)
      as [(_ & Hne & ->)|[(_ & Hfull & ->)|(_ & Hfull & ->)]]; simpl.
    + split; [by apply wf_board_set_cell|]. split; [by intros w [= <-]|].
      split; [|done]. split; [by left | done].
    + split; [by apply wf_board_set_cell|]. split; [done|].
      split; [|done]. split; [by right | done].
    + split; [by apply wf_board_set_cell|]. split; [done|]. split.
      * split; [done|]. by intros [?|?].
      * intros q [= <-]. case_bool_decide; auto.
Qed.

Lemma reachable_invariants_witness :
  reachable game_won
  ∧ (next_turn game_won = None
     ↔ winner game_won ≠ None ∨ board_full (board game_won)).
Proof.
  split; [apply reachable_game_won|].
  exact (proj1 (proj2 (proj2
           (reachable_invariants game_won reachable_game_won)))).
Defined.

(** The recorded winner holds a line. *)
Lemma reachable_winner_line g w :
  reachable g → winner g = Some w → completes (board g) w.
Proof.
  induction 1 as [p1 p2|g p position Hg IH]; [done|].
  destruct (move_rejected_or_valid g p position (reachable_inv g Hg))
    as [[msg ->]|(r & c & -> & Hvalid)]; [done|].
  destruct (move_valid g p r c Hvalid)
    as [(Hline & _ & ->)|[(_ & _ & ->)|(_ & _ & ->)]]; simpl; [|done..].
  by intros [= <-].
Qed.

(** X9: in a game obtained through the interface, the player [get_winner]
    returns holds all three cells of a row, a column or a diagonal. *)
Theorem winner_has_line g w :
  reachable g → get_winner g = Some w → completes (board g) w.
Proof. apply reachable_winner_line. Qed.

Lemma winner_has_line_witness :
  reachable game_won
  ∧ get_winner game_won = Some "A"
  ∧ completes (board game_won) "A".
Proof.
  assert (get_winner game_won = Some "A") as Hw by evaluate.
  split; [apply reachable_game_won|]. split; [done|].
  exact (winner_has_line game_won "A" reachable_game_won Hw).
Defined.

(** A player with a line is the recorded winner, when the identifiers are
    neither empty nor the empty marker. *)
Lemma reachable_line_winner g q :
  reachable g →
  player1 g ≠ EmptyString → player2 g ≠ EmptyString →
  player1 g ≠ "-" → player2 g ≠ "-" →
  q = player1 g ∨ q = player2 g →
  completes (board g) q → winner g = Some q.
Proof.
  intros Hg. revert q.
  induction Hg as [p1 p2|g p position Hg IH];
    intros q Hn1 Hn2 Hd1 Hd2 Hq Hline.
  - apply completes_empty_board in Hline. simpl in *. by destruct Hq; subst.
  - destruct (move_players g p position) as [H1 H2].
    rewrite H1, H2 in *.
    specialize (λ q, IH q Hn1 Hn2 Hd1 Hd2).
    destruct (move_rejected_or_valid g p position (reachable_inv g Hg))
      as [[msg Hmove]|(r & c & -> & Hvalid)].
    { rewrite Hmove in *. by apply IH. }
    assert (p = player1 g ∨ p = player2 g) as Hp
      by (by eapply reachable_mover).
    assert (p ≠ EmptyString) as Hpne by (by destruct Hp; subst).
    assert (q ≠ p → False) as Hother.
    { intros Hne.
      assert (completes (board g) q) as Hold.
      { apply (completes_set_cell_other _ r c p); [done| |].
        - destruct Hvalid as [_ _ _ _ _ _ ->]. eauto.
        - destruct (valid_move_accepted g p r c Hvalid) as [_ <-]. done. }
      apply IH in Hold; [|done]. destruct Hvalid. congruence. }
    destruct (decide (q = p)) as [->|Hne]; [|by destruct Hother].
    destruct (move_valid g p r c Hvalid)
      as [(_ & _ & Hmove)|[([Hno|?] & _ & Hmove)|([Hno|?] & _ & Hmove)]];
      rewrite Hmove in *; simpl in *; done.
Qed.

(** X10: in a game obtained through the interface between players whose
    identifiers are neither empty nor the empty marker, [get_winner] returns
    a player exactly when that player holds a line: no completed line goes
    unnoticed, and at most one player has one. *)
Theorem winner_iff_line g q :
  reachable g →
  player1 g ≠ EmptyString → player2 g ≠ EmptyString →
  player1 g ≠ "-" → player2 g ≠ "-" →
  q = player1 g ∨ q = player2 g →
  (get_winner g = Some q ↔ completes (board g) q).
Proof.
  intros Hg Hn1 Hn2 Hd1 Hd2 Hq. split.
  - by apply reachable_winner_line.
  - by apply reachable_line_winner.
Qed.

Lemma winner_iff_line_witness :
  reachable game_before_tie
  ∧ player1 game_before_tie ≠ EmptyString
  ∧ player2 game_before_tie ≠ EmptyString
  ∧ player1 game_before_tie ≠ "-" ∧ player2 game_before_tie ≠ "-"
  ∧ (get_winner game_before_tie = Some "B"
     ↔ completes (board game_before_tie) "B").
Proof.
  split; [apply reachable_game_before_tie|].
  split; [evaluate|]. split; [evaluate|]. split; [evaluate|].
  split; [evaluate|].
  apply (winner_iff_line game_before_tie "B" reachable_game_before_tie);
    [evaluate..|]. right. evaluate.
Defined.


(** X13: once a game obtained through the interface has a winner or a full
    board, no sequence of calls to [move] changes it. *)
Theorem game_over_frozen g calls :
  reachable g →
  winner g ≠ None ∨ board_full (board g) →
  play g calls = g.
Proof.
  intros [_ Hw]%reachable_inv Hover. apply play_terminal.
  destruct Hover as [Hset|?]; [left | by right]. by destruct Hw.
Qed.

Lemma game_over_frozen_witness :
  reachable game_won
  ∧ winner game_won ≠ None
  ∧ play game_won [("B", pos 2 2); ("A", pos 2 2); ("B", [])] = game_won.
Proof.
  assert (winner game_won ≠ None) as Hw by evaluate.
  split; [apply reachable_game_won|]. split; [done|].
  exact (game_over_frozen game_won _ reachable_game_won (or_introl Hw)).
Defined.

(** X14: in a game obtained through the interface every cell holds the
    empty marker or the identifier of one of the two players. *)
Theorem cells_are_players g r c m :
  reachable g →
  cell_at (board g) r c = Some m →
  m = "-" ∨ m = player1 g ∨ m = player2 g.
Proof.
  intros Hg. revert r c m.
  induction Hg as [p1 p2|g p position Hg IH]; intros r c m Hm.
  - left. destruct (decide (r < 3)%nat); [destruct (decide (c < 3)%nat)|].
    + change (board (start_new_game p1 p2)) with empty_board in Hm.
      rewrite cell_at_empty_board in Hm by done. congruence.
    + apply cell_at_Some in Hm as (row & Hrow & Hm).
      destruct r as [|[|[|r]]]; [..|done];
        injection Hrow as <-; apply lookup_lt_Some in Hm; simpl in Hm; lia.
    + apply cell_at_Some in Hm as (row & Hrow%lookup_lt_Some & _).
      simpl in Hrow. lia.
  - destruct (move_players g p position) as [-> ->].
    destruct (move_rejected_or_valid g p position (reachable_inv g Hg))
      as [[msg Hmove]|(r0 & c0 & -> & Hvalid)].
    { rewrite Hmove in Hm. by eapply IH. }
    destruct (valid_move_accepted g p r0 c0 Hvalid) as [_ Hboard].
    rewrite Hboard in Hm.
    destruct (decide ((r0, c0) = (r, c))) as [[= <- <-]|Hne].
    + rewrite cell_at_set_cell_eq in Hm
        by (destruct Hvalid as [_ _ _ _ _ _ ->]; eauto).
      injection Hm as <-. right. by eapply reachable_mover.
    + rewrite cell_at_set_cell_ne in Hm by done. by eapply IH.
Qed.

Lemma cells_are_players_witness :
  reachable game_before_tie
  ∧ cell_at (board game_before_tie) 1 1 = Some "B"
  ∧ ("B" = "-" ∨ "B" = player1 game_before_tie
     ∨ "B" = player2 game_before_tie).
Proof.
  assert (cell_at (board game_before_tie) 1 1 = Some "B") as Hm by evaluate.
  split; [apply reachable_game_before_tie|]. split; [done|].
  exact (cells_are_players game_before_tie 1 1 "B"
           reachable_game_before_tie Hm).
Defined.

(** ** The board as text, whatever its shape *)

(** X12: [get_board_as_string] flattens the board and fills the nine fields
    of its template with the first nine cells, so the text depends on
    nothing else: not on how the cells are split into rows, nor on cells
    after the ninth; a board with fewer than nine cells makes it raise
    [IndexError]. *)
Theorem get_board_as_string_flattened :
  (∀ g c0 c1 c2 c3 c4 c5 c6 c7 c8 rest,
     concat (board g) = c0 :: c1 :: c2 :: c3 :: c4 :: c5 :: c6 :: c7 :: c8 :: rest →
     get_board_as_string g = Ok (rendering c0 c1 c2 c3 c4 c5 c6 c7 c8))
  ∧ (∀ g, (length (concat (board g)) < 9)%nat →
          get_board_as_string g = Raise IndexError).
Proof.
  split.
  - intros g c0 c1 c2 c3 c4 c5 c6 c7 c8 rest Hflat.
    unfold get_board_as_string. cbv zeta. rewrite Hflat. reflexivity.
  - intros g Hlen. unfold get_board_as_string. cbv zeta.
    destruct (concat (board g))
      as [|c0 [|c1 [|c2 [|c3 [|c4 [|c5 [|c6 [|c7 [|c8 rest]]]]]]]]];
      try reflexivity.
    simpl in Hlen. lia.
Qed.

(** ** Counting marks *)

Lemma count_insert (l : list string) i x y q :
  l !! i = Some y →
  (length (filter (λ cell, cell = q) (<[i:=x]> l))
   + (if decide (y = q) then 1 else 0)
   = length (filter (λ cell, cell = q) l)
     + (if decide (x = q) then 1 else 0))%nat.
Proof.
  revert i. induction l as [|z l IH]; intros [|i] Hi; try done; simpl in *.
  - injection Hi as ->. rewrite !filter_cons.
    repeat case_decide; simpl; lia.
  - specialize (IH i Hi). rewrite !filter_cons.
    destruct (decide (z = q)); simpl; lia.
Qed.

Lemma count_marks_app (b1 b2 : list (list string)) q :
  count_marks (b1 ++ b2) q = (count_marks b1 q + count_marks b2 q)%nat.
Proof.
  unfold count_marks. by rewrite concat_app, filter_app, length_app.
Qed.

Lemma count_marks_cons (row : list string) (b : list (list string)) q :
  count_marks (row :: b) q
  = (length (filter (λ cell, cell = q) row) + count_marks b q)%nat.
Proof.
  unfold count_marks. simpl. by rewrite filter_app, length_app.
Qed.

(** Marking a cell moves one unit from the count of its old content to the
    count of the new mark. *)
Lemma count_marks_set_cell b r c m p q :
  cell_at b r c = Some m →
  (count_marks (set_cell b r c p) q + (if decide (m = q) then 1 else 0)
   = count_marks b q + (if decide (p = q) then 1 else 0))%nat.
Proof.
  intros (row & Hrow & Hm)%cell_at_Some.
  rewrite <- (set_cell_insert _ _ _ _ _ Hrow).
  rewrite insert_take_drop by (by eapply lookup_lt_Some).
  rewrite <- (take_drop_middle b r row Hrow) at 3.
  rewrite !count_marks_app, !count_marks_cons.
  pose proof (count_insert row c p m q Hm). lia.
Qed.

Lemma count_marks_empty_board q :
  count_marks empty_board q = if decide ("-" = q) then 9%nat else 0%nat.
Proof.
  unfold count_marks, empty_board. simpl. rewrite !filter_cons, filter_nil.
  by case_decide.
Qed.

(** X15: in a game obtained through the interface between two players with
    different identifiers, neither of them the empty marker, the nine cells
    are shared between the empty marker and the two players; the first
    player has as many marks as the second or one more, and while the game
    goes on [next_turn] tells which: equal counts when the first player is to
    move, one more when the second is. *)
Theorem marks_follow_turns g :
  reachable g →
  player1 g ≠ player2 g → player1 g ≠ "-" → player2 g ≠ "-" →
  (count_marks (board g) "-" + count_marks (board g) (player1 g)
   + count_marks (board g) (player2 g) = 9)%nat
  ∧ (count_marks (board g) (player2 g) ≤ count_marks (board g) (player1 g)
     ≤ count_marks (board g) (player2 g) + 1)%nat
  ∧ (next_turn g = Some (player1 g) →
     count_marks (board g) (player1 g) = count_marks (board g) (player2 g))
  ∧ (next_turn g = Some (player2 g) →
     count_marks (board g) (player1 g)
     = (count_marks (board g) (player2 g) + 1)%nat).
Proof.
  induction 1 as [p1 p2|g p position Hg IH]; intros Hne Hd1 Hd2.
  - simpl in *. change [["-"; "-"; "-"]; ["-"; "-"; "-"]; ["-"; "-"; "-"]]
      with empty_board.
    rewrite !count_marks_empty_board.
    rewrite (decide_False (P := "-" = p1)) by done.
    rewrite (decide_False (P := "-" = p2)) by done.
    split; [done|]. split; [lia|]. split; [done|]. by intros [= ?].
  - destruct (move_players g p position) as [H1 H2].
    rewrite H1, H2 in *. specialize (IH Hne Hd1 Hd2).
    destruct (move_rejected_or_valid g p position (reachable_inv g Hg))
      as [[msg ->]|(r & c & -> & Hvalid)]; [done|].
    assert (p = player1 g ∨ p = player2 g) as Hp
      by (by eapply reachable_mover).
    pose proof Hvalid as [_ _ _ Hturn _ _ Hcell].
    pose proof (count_marks_set_cell _ r c "-" p "-" Hcell) as Hc0.
    pose proof (count_marks_set_cell _ r c "-" p (player1 g) Hcell) as Hc1.
    pose proof (count_marks_set_cell _ r c "-" p (player2 g) Hcell) as Hc2.
    rewrite (decide_True (P := "-" = "-")) in Hc0 by done.
    rewrite (decide_False (P := "-" = player1 g)) in Hc1 by done.
    rewrite (decide_False (P := "-" = player2 g)) in Hc2 by done.
    destruct IH as (Hsum & Hbound & Hfirst & Hsecond).
    assert (next_turn (move g p (pos r c)).1 = None
            ∨ next_turn (move g p (pos r c)).1
              = Some (if bool_decide (next_turn g = Some (player2 g))
                      then player1 g else player2 g)) as Hnext.
    { destruct (move_valid g p r c Hvalid)
        as [(_ & _ & ->)|[(_ & _ & ->)|(_ & _ & ->)]]; auto. }
    destruct (valid_move_accepted g p r c Hvalid) as [_ ->].
    rewrite Hturn in Hnext, Hfirst, Hsecond.
    destruct Hp as [->| ->].
    + rewrite (decide_False (P := player1 g = "-")) in Hc0 by done.
      rewrite (decide_True (P := player1 g = player1 g)) in Hc1 by done.
      rewrite (decide_False (P := player1 g = player2 g)) in Hc2 by done.
      specialize (Hfirst eq_refl).
      rewrite bool_decide_eq_false_2 in Hnext by congruence.
      split; [lia|]. split; [lia|].
      split; [intros Hn; rewrite Hn in Hnext; destruct Hnext; congruence|].
      intros _. lia.
    + rewrite (decide_False (P := player2 g = "-")) in Hc0 by done.
      rewrite (decide_False (P := player2 g = player1 g)) in Hc1 by done.
      rewrite (decide_True (P := player2 g = player2 g)) in Hc2 by done.
      specialize (Hsecond eq_refl).
      rewrite bool_decide_eq_true_2 in Hnext by done.
      split; [lia|]. split; [lia|].
      split; [intros _; lia|].
      intros Hn. rewrite Hn in Hnext. destruct Hnext; congruence.
Qed.

Lemma marks_follow_turns_witness :
  reachable game_before_tie
  ∧ player1 game_before_tie ≠ player2 game_before_tie
  ∧ player1 game_before_tie ≠ "-" ∧ player2 game_before_tie ≠ "-"
  ∧ (next_turn game_before_tie = Some (player1 game_before_tie) →
     count_marks (board game_before_tie) (player1 game_before_tie)
     = count_marks (board game_before_tie) (player2 game_before_tie)).
Proof.
  split; [apply reachable_game_before_tie|].
  split; [evaluate|]. split; [evaluate|]. split; [evaluate|].
  apply (marks_follow_turns game_before_tie reachable_game_before_tie);
    evaluate.
Defined.

Lemma moves_made_terminal g calls : terminal g → moves_made g calls = 0%nat.
Proof.
  intros Hterm. induction calls as [|[p position] calls IH]; [done|].
  simpl. by rewrite (game_over_refuses g p position Hterm).
Qed.

Lemma count_marks_cell b r c m :
  cell_at b r c = Some m → (1 ≤ count_marks b m)%nat.
Proof.
  intros (row & Hrow & Hm)%cell_at_Some. unfold count_marks.
  assert (m ∈ filter (λ cell, cell = m) (concat b)) as Hin.
  { apply list_elem_of_filter. split; [done|].
    apply list_elem_of_In, in_concat. exists row.
    rewrite <- !list_elem_of_In. split; by eapply list_elem_of_lookup_2. }
  destruct (filter _ _); [by apply elem_of_nil in Hin | simpl; lia].
Qed.

Lemma moves_made_bound g calls :
  reachable g → (moves_made g calls ≤ count_marks (board g) "-")%nat.
Proof.
  revert g. induction calls as [|[p position] calls IH]; intros g Hg;
    [simpl; lia|].
  specialize (IH _ (reachable_move g p position Hg)). simpl.
  destruct (move_rejected_or_valid g p position (reachable_inv g Hg))
    as [[msg Hmove]|(r & c & -> & Hvalid)].
  { rewrite Hmove in *. simpl in *. lia. }
  pose proof Hvalid as [_ _ _ _ _ _ Hcell].
  assert (match (move g p (pos r c)).2 with
          | Raise (InvalidMovement _) => 0
          | _ => 1
          end = 1)%nat as ->.
  { destruct (valid_move_accepted g p r c Hvalid) as [[->|[msg ->]] _]; done. }
  destruct (decide (p = "-")) as [->|Hp].
  - rewrite moves_made_terminal.
    + pose proof (count_marks_cell _ _ _ _ Hcell). lia.
    + apply dash_move_terminal; [|done]. apply reachable_dash; [done|].
      destruct (reachable_mover g "-" r c Hg Hvalid); auto.
  - destruct (valid_move_accepted g p r c Hvalid) as [_ Hboard].
    rewrite Hboard in IH.
    pose proof (count_marks_set_cell _ r c "-" p "-" Hcell) as Hc.
    rewrite (decide_True (P := "-" = "-")) in Hc by done.
    rewrite (decide_False (P := p = "-")) in Hc by done. lia.
Qed.

(** X16: a game takes at most nine moves: of any sequence of calls to
    [move] on a new game, by whatever players and at whatever positions, at
    most nine are not refused; on any game obtained through the interface,
    no more than there are empty cells left. *)
Theorem at_most_nine_moves :
  (∀ p1 p2 calls, (moves_made (start_new_game p1 p2) calls ≤ 9)%nat)
  ∧ (∀ g calls,
       reachable g →
       (moves_made g calls ≤ count_marks (board g) "-")%nat).
Proof.
  split; [|intros; by apply moves_made_bound].
  intros p1 p2 calls.
  pose proof (moves_made_bound _ calls (reachable_start p1 p2)) as H.
  change (board (start_new_game p1 p2)) with empty_board in H.
  rewrite count_marks_empty_board in H.
  by rewrite (decide_True (P := "-" = "-")) in H.
Qed.

(** X17: on a game obtained through the interface a call to [move] is
    carried out, returning normally or raising [GameOver], exactly when the
    game has no winner, the board is not full, the caller is the player whose
    turn it is, the position is one of the nine pairs and its cell is empty;
    the cell then holds the caller's identifier. *)
Theorem move_accepted_iff g p position :
  reachable g →
  (accepted (move g p position).2
   ↔ ∃ r c, position = pos r c ∧ valid_move g p r c)
  ∧ (∀ r c, position = pos r c → valid_move g p r c →
            cell_at (board (move g p position).1) r c = Some p).
Proof.
  intros Hg. split; [split|].
  - intros Hacc.
    destruct (move_rejected_or_valid g p position (reachable_inv g Hg))
      as [[msg Hmove]|?]; [|done].
    rewrite Hmove in Hacc. by destruct Hacc as [?|[? ?]].
  - intros (r & c & -> & Hvalid). by apply valid_move_accepted.
  - intros r c -> Hvalid.
    destruct (valid_move_accepted g p r c Hvalid) as [_ ->].
    apply cell_at_set_cell_eq. destruct Hvalid as [_ _ _ _ _ _ ->]. eauto.
Qed.

Lemma move_accepted_iff_witness :
  reachable game_AB
  ∧ (accepted (move game_AB "A" (pos 1 1)).2
     ↔ ∃ r c, pos 1 1 = pos r c ∧ valid_move game_AB "A" r c).
Proof.
  split; [apply reachable_start|].
  exact (proj1 (move_accepted_iff game_AB "A" (pos 1 1)
                  (reachable_start "A" "B"))).
Defined.
